(** * BingoGen: word processing, card generation, unit conversion, PDF layout

    A shallow embedding of [client/src/lib/bingoUtils.ts] and of the page
    layout of [exportCardsToPDF] in [client/src/lib/fileUtils.ts], with the
    properties the specification states about them.

    Conventions of the embedding:
    - a JavaScript string is the list of its UTF-16 code units ([N]);
    - a JavaScript [number] that holds a count or an index is a [Z], one that
      holds a measurement is the rational [Q] it denotes; the products and
      quotients of the unit converter ([convertSize] and
      [getSizePresetDimensions]) are rounded to binary64 as the program's
      are ([fl]), the other arithmetic is that of the rationals;
    - [Math.random()] is the k-th element of a sequence of rationals, the
      number of calls made so far is the state threaded through the
      generator;
    - [throw new Error(msg)] is the [inl (Error msg)] result of a small
      state-and-error monad. *)

From Stdlib Require Import ZArith QArith Qround Qabs Qpower Lqa.
From Stdlib Require Import String Ascii DecimalString.
From stdpp Require Import gmap list.

Open Scope Z_scope.
Open Scope list_scope.

(** ** The host's strings *)

Abbreviation jsstring := (list N).

(** A literal: the code units of an 8-bit string. *)
Definition js (s : string) : jsstring :=
  N_of_ascii <$> list_ascii_of_string s.

(** [String(n)] / [`${n}`] for an integer [n] (one below [10^21], where
    JavaScript turns to the exponent notation). *)
Definition ToString (n : Z) : jsstring :=
  js (NilZero.string_of_int (Z.to_int n)).

(** ECMAScript WhiteSpace and LineTerminator code points, the ones
    [String.prototype.trim] strips. *)
Definition isWhiteSpace (c : N) : bool :=
  ((9 <=? c) && (c <=? 13) || (c =? 32) || (c =? 160) || (c =? 5760)
   || (8192 <=? c) && (c <=? 8202) || (c =? 8232) || (c =? 8233)
   || (c =? 8239) || (c =? 8287) || (c =? 12288) || (c =? 65279))%N.

Fixpoint trimStart (s : jsstring) : jsstring :=
  match s with
  | c :: s' => if isWhiteSpace c then trimStart s' else s
  | [] => []
  end.

Definition trimEnd (s : jsstring) : jsstring :=
  reverse (trimStart (reverse s)).

Definition trim (s : jsstring) : jsstring := trimEnd (trimStart s).

(** The character class [[,\n]] of the separator pattern. *)
Definition is_separator (c : N) : bool := ((c =? 44) || (c =? 10))%N.

(** [s.split(/[,\n]+/)]: the pieces of [s] between the maximal runs of
    separators.  [in_run] tells that the previous code unit was a separator
    (the greedy [+] is still consuming the same run).  A run at the very
    start or end of [s] leaves an empty piece there, as in JavaScript. *)
Fixpoint split_from (in_run : bool) (s : jsstring) : list jsstring :=
  match s with
  | [] => [[]]
  | c :: s' =>
      if is_separator c then
        if in_run then split_from true s' else [] :: split_from true s'
      else
        match split_from false s' with
        | piece :: pieces => (c :: piece) :: pieces
        | [] => [[c]]
        end
  end.

Definition split (s : jsstring) : list jsstring := split_from false s.

(** [words.join(sep)] *)
Fixpoint join (sep : jsstring) (words : list jsstring) : jsstring :=
  match words with
  | [] => []
  | [w] => w
  | w :: ws => w ++ sep ++ join sep ws
  end.

(** ** WordProcessor: [processWords] *)

Section WordProcessor.

(** [String.prototype.toLowerCase], the host's Unicode case mapping. *)
Variable toLowerCase : jsstring -> jsstring.

(** The [for (const word of words)] loop: [seen] is the [Set<string>] of
    lower-cased words met so far, [unique] the array pushed to. *)
Fixpoint dedup_loop (seen : gset jsstring) (unique : list jsstring)
    (words : list jsstring) : list jsstring :=
  match words with
  | [] => unique
  | word :: rest =>
      let lowerWord := toLowerCase word in
      if decide (lowerWord ∈ seen)
      then dedup_loop seen unique rest
      else dedup_loop ({[lowerWord]} ∪ seen) (unique ++ [word]) rest
  end.

(** The candidates: split, trimmed, empties filtered out. *)
Definition candidates (input : jsstring) : list jsstring :=
  filter (λ word, (0 < length word)%nat) (trim <$> split input).

Definition processWords (input : jsstring) : list jsstring :=
  match input with
  | [] => []                                   (* [if (!input) return []] *)
  | _ => dedup_loop ∅ [] (candidates input)
  end.

End WordProcessor.

(** Lower-casing of the Basic Latin letters, other code units unchanged. *)
Definition ascii_lower (c : N) : N :=
  if ((65 <=? c) && (c <=? 90))%N then (c + 32)%N else c.

Definition ascii_toLowerCase (s : jsstring) : jsstring := ascii_lower <$> s.

(** ** Errors, the random source and the generator's monad *)

(** [new Error(message)] *)
Inductive JSError := Error (message : jsstring).

(** A computation that may call [Math.random] and may throw: it runs from
    the number of calls made so far and gives back the new count. *)
Definition M (A : Type) : Type := nat -> (JSError + A) * nat.

Definition ret {A} (a : A) : M A := fun k => (inr a, k).

Definition throw {A} (e : JSError) : M A := fun k => (inl e, k).

Definition bind {A B} (m : M A) (f : A -> M B) : M B :=
  fun k =>
    match m k with
    | (inl e, k') => (inl e, k')
    | (inr a, k') => f a k'
    end.

Notation "'let!' x ':=' m 'in' f" := (bind m (fun x => f))
  (at level 10, x name, m at level 100, f at level 200).

Record BingoCard := {
  card_id : jsstring;
  card_words : list jsstring;
  card_gridSize : Z
}.

Record CardConfig := {
  gridSize : Z;
  numCards : Z;
  allowRepetition : bool
}.

(** ** CardGenerator *)

Definition calculateRequiredWords (gridSize numCards : Z) : Z :=
  let cellsPerCard := gridSize * gridSize in
  cellsPerCard * numCards.

(** [[a[i], a[j]] = [a[j], a[i]]]: both cells are read, then [a[i]] and
    [a[j]] are written.  The loop only calls it with [j <= i < a.length];
    outside the array the model leaves [a] as it is. *)
Definition swap {T} (a : list T) (i j : nat) : list T :=
  match a !! j, a !! i with
  | Some aj, Some ai => <[j := ai]> (<[i := aj]> a)
  | _, _ => a
  end.

Section CardGenerator.

(** The value of the k-th call of [Math.random()]. *)
Variable Math_random : nat -> Q.

Definition random : M Q := fun k => (inr (Math_random k), S k).

(** [Math.floor(r * n)] as an array index. *)
Definition floor_scaled (r : Q) (n : nat) : nat :=
  Z.to_nat (Qfloor (r * inject_Z (Z.of_nat n))%Q).

(** [for (let i = shuffled.length - 1; i > 0; i--)] *)
Fixpoint shuffle_loop {T} (i : nat) (shuffled : list T) : M (list T) :=
  match i with
  | O => ret shuffled
  | S i' =>
      let! r := random in
      let j := floor_scaled r (i + 1) in
      shuffle_loop i' (swap shuffled i j)
  end.

Definition shuffleArray {T} (array : list T) : M (list T) :=
  let shuffled := array in                      (* [[...array]] *)
  shuffle_loop (length shuffled - 1) shuffled.

Definition generateSingleCard (availableWords : list jsstring)
    (gridSize : Z) (cardId : jsstring) : M BingoCard :=
  let cellsNeeded := gridSize * gridSize in
  if Z.of_nat (length availableWords) <? cellsNeeded then
    throw (Error (js "Not enough unique words. Need " ++ ToString cellsNeeded
                  ++ js ", have "
                  ++ ToString (Z.of_nat (length availableWords))))
  else
    let! shuffled := shuffleArray availableWords in
    let selectedWords := take (Z.to_nat cellsNeeded) shuffled in
    ret {| card_id := cardId;
           card_words := selectedWords;
           card_gridSize := gridSize |}.

(** [`card-${i + 1}`] *)
Definition cardId_of (i : Z) : jsstring := js "card-" ++ ToString (i + 1).

(** [for (let i = 0; i < config.numCards; i++)], with [n] the number of
    iterations left. *)
Fixpoint cards_loop (words : list jsstring) (config : CardConfig)
    (n : nat) (i : Z) (cards : list BingoCard) : M (list BingoCard) :=
  match n with
  | O => ret cards
  | S n' =>
      let cardId := cardId_of i in
      if allowRepetition config then
        let! card := generateSingleCard words (gridSize config) cardId in
        cards_loop words config n' (i + 1) (cards ++ [card])
      else
        let! card := generateSingleCard words (gridSize config) cardId in
        cards_loop words config n' (i + 1) (cards ++ [card])
  end.

Definition generateBingoCards (words : list jsstring) (config : CardConfig)
    : M (list BingoCard) :=
  let cellsPerCard := gridSize config * gridSize config in
  if Z.of_nat (length words) <? cellsPerCard then
    throw (Error (js "Not enough unique words. Need at least "
                  ++ ToString cellsPerCard ++ js ", have "
                  ++ ToString (Z.of_nat (length words))))
  else
    cards_loop words config (Z.to_nat (numCards config)) 0 [].

End CardGenerator.

Definition isWordCountSufficient (wordCount gridSize numCards : Z) : bool :=
  let required := gridSize * gridSize in
  wordCount >=? required.

(** ** binary64 *)

(** 2^e, for any integer exponent. *)
Definition pow2 (e : Z) : Q := (2 ^ e)%Q.

(** The integer nearest to [y], the even one of the two when [y] is half
    way between them. *)
Definition round_half_even (y : Q) : Z :=
  let f := Qfloor y in
  match (y - inject_Z f ?= 1 # 2)%Q with
  | Lt => f
  | Gt => f + 1
  | Eq => if Z.even f then f else f + 1
  end.

(** The exponent [k] with [2^k <= |x| < 2^(k+1)], for [x] other than 0. *)
Definition ilog2 (x : Q) : Z :=
  let k := Z.log2 (Z.abs (Qnum x)) - Z.log2 (Z.pos (Qden x)) in
  if Qle_bool (pow2 k) (Qabs x) then k else k - 1.

(** The exponent of the unit in the last place of the binary64 numbers
    around [x]: 53 significant bits, and no exponent below -1074. *)
Definition binade (x : Q) : Z := Z.max (ilog2 x - 52) (-1074).

(** The binary64 number nearest to [x], ties to even: what a JavaScript
    product, quotient or decimal literal of exact value [x] evaluates to.
    (Values of 2^1024 and beyond, which JavaScript turns into [Infinity],
    are outside the model.) *)
Definition fl (x : Q) : Q :=
  if Qeq_bool x 0 then 0%Q
  else
    let e := binade x in
    (inject_Z (Z.sgn (Qnum x) * round_half_even (Qabs x / pow2 e))
     * pow2 e)%Q.

(** ** UnitConverter *)

Inductive SizeUnit := px | mm.

Inductive SizePreset := A4 | Letter | Custom.

Record Dimensions := { width : Q; height : Q }.

(** [Math.round]: the nearest integer, halves towards plus infinity. *)
Definition Math_round (x : Q) : Q := inject_Z (Qfloor (x + 0.5)%Q).

Definition SizeUnit_eqb (a b : SizeUnit) : bool :=
  match a, b with
  | px, px | mm, mm => true
  | _, _ => false
  end.

Definition getSizePresetDimensions (preset : SizePreset) (unit : SizeUnit)
    : Dimensions :=
  let dpi := 96%Q in
  let mmToPx := fl (dpi / fl 25.4) in
  match preset with
  | A4 =>
      if SizeUnit_eqb unit mm
      then {| width := 210%Q; height := 297%Q |}
      else {| width := Math_round (fl (210 * mmToPx));
              height := Math_round (fl (297 * mmToPx)) |}
  | Letter =>
      if SizeUnit_eqb unit mm
      then {| width := 216%Q; height := 279%Q |}
      else {| width := Math_round (fl (216 * mmToPx));
              height := Math_round (fl (279 * mmToPx)) |}
  | Custom => {| width := 600%Q; height := 800%Q |}
  end.

(** The quotient [dpi / 25.4], the product and the quotient with [value]
    are binary64 operations; [Math.round] is exact on their results. *)
Definition convertSize (value : Q) (from to : SizeUnit) : Q :=
  if SizeUnit_eqb from to then value
  else
    let dpi := 96%Q in
    let mmToPx := fl (dpi / fl 25.4) in
    if SizeUnit_eqb from mm && SizeUnit_eqb to px then
      Math_round (fl (value * mmToPx))
    else if SizeUnit_eqb from px && SizeUnit_eqb to mm then
      Math_round (fl (value / mmToPx))
    else value.

(** ** ExportPipeline: the page layout of [exportCardsToPDF] *)

Inductive Layout := one_per_page | multiple_per_page.

(** The canvas [html2canvas] gives back; [Image] is the PNG data URL of its
    raster. *)
Record Canvas (Image : Type) := {
  canvas_width : Q;
  canvas_height : Q;
  toDataURL : Image
}.

(** One [pdf.addImage(imageData, 'PNG', x, y, w, h)]. *)
Record Placed (Image : Type) := {
  imageData : Image;
  xPos : Q;
  yPos : Q;
  imgWidth : Q;
  imgHeight : Q
}.

Arguments canvas_width {Image}.
Arguments canvas_height {Image}.
Arguments toDataURL {Image}.
Arguments imageData {Image}.
Arguments xPos {Image}.
Arguments yPos {Image}.
Arguments imgWidth {Image}.
Arguments imgHeight {Image}.

(** A jsPDF document: its pages in order, each with the images placed on
    it; the last page is the current one. *)
Abbreviation PDF Image := (list (list (Placed Image))).

Section ExportPipeline.

(** A rendered card ([HTMLElement]) and the image data of a raster. *)
Context {Element Image : Type}.

(** The rasterization primitive, a black box that is assumed to succeed. *)
Variable html2canvas : Element -> Canvas Image.

(** [pdf.internal.pageSize.getWidth()] and [getHeight()] of the portrait
    A4 document, in millimetres. *)
Variables pageWidth pageHeight : Q.

(** [new jsPDF(...)] starts with one empty page. *)
Definition new_jsPDF : PDF Image := [[]].

Definition addPage (pdf : PDF Image) : PDF Image := pdf ++ [[]].

Definition addImage (img : Placed Image) (pdf : PDF Image) : PDF Image :=
  alter (λ page, page ++ [img]) (length pdf - 1)%nat pdf.

Definition of_nat (n : nat) : Q := inject_Z (Z.of_nat n).

(** The body of the loop over [cardElements] at index [i]. *)
Definition place_card (layout : Layout) (i : nat) (element : Element)
    (pdf : PDF Image) : PDF Image :=
  let canvas := html2canvas element in
  let imgData := toDataURL canvas in
  match layout with
  | one_per_page =>
      let pdf := if (0 <? i)%nat then addPage pdf else pdf in
      let margin := 10%Q in
      let availWidth := (pageWidth - margin * 2)%Q in
      let imgWidth := availWidth in
      (* a rendered card has a positive width and height; for a canvas
         of width 0 the program's quotient is not a number and jsPDF
         refuses the image, which this model does not follow *)
      let imgHeight :=
        ((canvas_height canvas / canvas_width canvas) * imgWidth)%Q in
      let yPos := ((pageHeight - imgHeight) / 2)%Q in
      addImage {| imageData := imgData; xPos := margin; yPos := yPos;
                  imgWidth := imgWidth; imgHeight := imgHeight |} pdf
  | multiple_per_page =>
      let cardsPerPage := 4%nat in
      let cardIndex := (i mod cardsPerPage)%nat in
      let pdf :=
        if (cardIndex =? 0)%nat && (0 <? i)%nat then addPage pdf else pdf in
      let cardWidth := ((pageWidth - 20) / 2)%Q in
      let cardHeight := ((pageHeight - 20) / 2)%Q in
      let col := (cardIndex mod 2)%nat in
      let row := (cardIndex / 2)%nat in
      let xPos := (10 + of_nat col * (cardWidth + 5))%Q in
      let yPos := (10 + of_nat row * (cardHeight + 5))%Q in
      addImage {| imageData := imgData; xPos := xPos; yPos := yPos;
                  imgWidth := cardWidth; imgHeight := cardHeight |} pdf
  end.

(** [for (let i = 0; i < cardElements.length; i++)], from index [i] on the
    elements still to place. *)
Fixpoint export_loop (layout : Layout) (i : nat) (rest : list Element)
    (pdf : PDF Image) : PDF Image :=
  match rest with
  | [] => pdf
  | element :: rest' =>
      export_loop layout (S i) rest' (place_card layout i element pdf)
  end.

(** The document handed to [pdf.save]. *)
Definition exportCardsToPDF (cardElements : list Element) (layout : Layout)
    : PDF Image :=
  export_loop layout 0 cardElements new_jsPDF.

(** The image the grid layout puts down for card [i]. *)
Definition grid_cell (i : nat) (element : Element) : Placed Image :=
  let cardWidth := ((pageWidth - 20) / 2)%Q in
  let cardHeight := ((pageHeight - 20) / 2)%Q in
  {| imageData := toDataURL (html2canvas element);
     xPos := (10 + of_nat ((i mod 4) mod 2) * (cardWidth + 5))%Q;
     yPos := (10 + of_nat ((i mod 4) / 2) * (cardHeight + 5))%Q;
     imgWidth := cardWidth;
     imgHeight := cardHeight |}.

(** The document after the grid layout has placed the cards [l]: full
    pages of four, then a last page with the [1..4] cards that remain
    (or the empty first page when nothing was placed). *)
Definition grid_inv (l : list Element) (pdf : PDF Image) : Prop :=
  ∃ full last,
    pdf = full ++ [last] ∧
    Forall (λ page, length page = 4%nat) full ∧
    (length l = 4 * length full + length last)%nat ∧
    (length last ≤ 4)%nat ∧
    (l = [] ∨ (0 < length last)%nat) ∧
    ∀ i e, l !! i = Some e →
      ∃ page, pdf !! (i / 4)%nat = Some page
              ∧ page !! (i mod 4)%nat = Some (grid_cell i e).

End ExportPipeline.

(** ** LayoutEngine: [calculateCardDimensions] *)

Record CardDimensions := {
  cellWidth : Q;
  cellHeight : Q;
  cardWidth : Q;
  cardHeight : Q
}.

(** [Math.floor] *)
Definition Math_floor (x : Q) : Q := inject_Z (Qfloor x).

Definition calculateCardDimensions (gridSize : Z)
    (containerWidth containerHeight : Q) : CardDimensions :=
  let gridSize := inject_Z gridSize in
  let padding := 20%Q in
  let border := 2%Q in
  let spacing := 1%Q in
  let availableWidth := (containerWidth - padding * 2 - border * 2)%Q in
  let availableHeight := (containerHeight - padding * 2 - border * 2)%Q in
  let cellWidth := ((availableWidth - spacing * (gridSize - 1)) / gridSize)%Q in
  let cellHeight :=
    ((availableHeight - spacing * (gridSize - 1)) / gridSize)%Q in
  {| cellWidth := Math_floor cellWidth;
     cellHeight := Math_floor cellHeight;
     cardWidth := containerWidth;
     cardHeight := containerHeight |}.

(** ** Tabular input: [parseCSVFile] and [extractWordsFromParsedData] *)

Record ParsedFileData := {
  columns : list jsstring;
  rows : list (list jsstring);
  selectedColumn : Z
}.

(** What [parseCSVFile] does with the rows [Papa.parse] hands to its
    [complete] callback (every row an array of strings, no empty line). *)
Definition parseCSVFile (raw : list (list jsstring))
    : JSError + ParsedFileData :=
  match raw with
  | [] => inl (Error (js "CSV file is empty"))
  | header :: dataRows =>
      inr {| columns :=
               imap (λ index _, js "Column " ++ ToString (Z.of_nat index + 1))
                 header;
             rows := dataRows;
             selectedColumn := 0 |}
  end.

(** [row[columnIndex]]: [None] is [undefined]. *)
Definition cell_at (row : list jsstring) (columnIndex : Z)
    : option jsstring :=
  if columnIndex <? 0 then None else row !! Z.to_nat columnIndex.

(** The [for (const row of data.rows)] loop, [words] the array pushed to.
    An absent cell and an empty one are both falsy. *)
Fixpoint extract_loop (columnIndex : Z) (rest : list (list jsstring))
    (words : list jsstring) : list jsstring :=
  match rest with
  | [] => words
  | row :: rest' =>
      match cell_at row columnIndex with
      | Some cell =>
          if (0 <? length cell)%nat then
            let word := trim cell in
            if (0 <? length word)%nat
            then extract_loop columnIndex rest' (words ++ [word])
            else extract_loop columnIndex rest' words
          else extract_loop columnIndex rest' words
      | None => extract_loop columnIndex rest' words
      end
  end.

Definition extractWordsFromParsedData (data : ParsedFileData)
    (columnIndex : Z) : list jsstring :=
  extract_loop columnIndex (rows data) [].

(** ** Accepted files: [isValidFileType] *)

Record File := {
  file_type : jsstring;
  file_name : jsstring
}.

(** [s.endsWith(suffix)] *)
Definition endsWith (s suffix : jsstring) : bool :=
  bool_decide (drop (length s - length suffix) s = suffix).

Definition isValidFileType (file : File) : bool :=
  let validTypes :=
    [js "text/csv";
     js "application/vnd.ms-excel";
     js "application/vnd.openxmlformats-officedocument.spreadsheetml.sheet"]
  in
  bool_decide (file_type file ∈ validTypes)
  || endsWith (file_name file) (js ".csv")
  || endsWith (file_name file) (js ".xlsx")
  || endsWith (file_name file) (js ".xls").

(** ** The bundle of images: [exportCardsAsZIP] *)

(** [s.split(',')]: the pieces of [s] between its commas, one more than
    there are commas. *)
Fixpoint split_commas (s : jsstring) : list jsstring :=
  match s with
  | [] => [[]]
  | c :: s' =>
      if (c =? 44)%N then [] :: split_commas s'
      else
        match split_commas s' with
        | piece :: pieces => (c :: piece) :: pieces
        | [] => [[c]]
        end
  end.

(** [imgDataUrl.split(',')[1] || ''] *)
Definition base64_of (imgDataUrl : jsstring) : jsstring :=
  default [] (split_commas imgDataUrl !! 1%nat).

(** [`bingo-card-${i + 1}.png`] *)
Definition png_name (i : nat) : jsstring :=
  js "bingo-card-" ++ ToString (Z.of_nat i + 1) ++ js ".png".

Section Bundle.

Context {Element : Type}.

(** The rasterization primitive; the image data is the PNG data URL. *)
Variable html2canvas : Element -> Canvas jsstring.

(** The loop over [cardElements] from index [i]; a JSZip archive is the
    map from its entries' names to their data, and [zip.file] sets one. *)
Fixpoint zip_loop (i : nat) (rest : list Element)
    (zip : gmap jsstring jsstring) : gmap jsstring jsstring :=
  match rest with
  | [] => zip
  | element :: rest' =>
      let canvas := html2canvas element in
      let imgDataUrl := toDataURL canvas in
      let base64Data := base64_of imgDataUrl in
      zip_loop (S i) rest' (<[png_name i := base64Data]> zip)
  end.

(** The archive handed to [generateAsync]. *)
Definition exportCardsAsZIP (cardElements : list Element)
    : gmap jsstring jsstring :=
  zip_loop 0 cardElements ∅.

End Bundle.

(** ** The page [Home.tsx]: generating and deleting cards *)

Inductive Step := setup | words_step | styling | logo | generate.

(** The part of the page's state the two handlers read and set. *)
Record HomeState := {
  st_words : list jsstring;
  st_cardConfig : CardConfig;
  st_generatedCards : list BingoCard;
  st_isGenerating : bool;
  st_error : jsstring;
  st_success : jsstring;
  st_currentStep : Step
}.

Section Home.

Variable Math_random : nat -> Q.

(** The [try] block of [handleGenerateCards], up to the cards. *)
Definition try_generate (st : HomeState) : M (list BingoCard) :=
  let words := st_words st in
  let cardConfig := st_cardConfig st in
  let requiredWords :=
    calculateRequiredWords (gridSize cardConfig) (numCards cardConfig) in
  let hasEnoughWords :=
    isWordCountSufficient (Z.of_nat (length words)) (gridSize cardConfig)
      (numCards cardConfig) in
  if negb hasEnoughWords then
    throw (Error (js "Need at least " ++ ToString requiredWords
                  ++ js " unique words, but you have "
                  ++ ToString (Z.of_nat (length words))))
  else generateBingoCards Math_random words cardConfig.

(** The state [handleGenerateCards] leaves, and the count of calls of the
    random source. *)
Definition handleGenerateCards (st : HomeState) (k : nat) : HomeState * nat :=
  match try_generate st k with
  | (inr cards, k') =>
      ({| st_words := st_words st;
          st_cardConfig := st_cardConfig st;
          st_generatedCards := cards;
          st_isGenerating := false;
          st_error := [];
          st_success :=
            js "Generated " ++ ToString (Z.of_nat (length cards))
            ++ js " bingo card(s) successfully!";
          st_currentStep := generate |}, k')
  | (inl (Error message), k') =>
      ({| st_words := st_words st;
          st_cardConfig := st_cardConfig st;
          st_generatedCards := st_generatedCards st;
          st_isGenerating := false;
          st_error := message;
          st_success := [];
          st_currentStep := st_currentStep st |}, k')
  end.

End Home.

Definition handleDeleteCard (st : HomeState) (cardId : jsstring) : HomeState :=
  {| st_words := st_words st;
     st_cardConfig := st_cardConfig st;
     st_generatedCards :=
       filter (λ card, card_id card ≠ cardId) (st_generatedCards st);
     st_isGenerating := st_isGenerating st;
     st_error := st_error st;
     st_success := st_success st;
     st_currentStep := st_currentStep st |}.

Section OnePerPage.

Context {Element Image : Type}.
Variable html2canvas : Element -> Canvas Image.
Variables pageWidth pageHeight : Q.

(** The image the one-per-page layout puts down for a card. *)
Definition single_cell (element : Element) : Placed Image :=
  let canvas := html2canvas element in
  let imgWidth := (pageWidth - 10 * 2)%Q in
  let imgHeight :=
    ((canvas_height canvas / canvas_width canvas) * imgWidth)%Q in
  {| imageData := toDataURL canvas;
     xPos := 10%Q;
     yPos := ((pageHeight - imgHeight) / 2)%Q;
     imgWidth := imgWidth;
     imgHeight := imgHeight |}.

End OnePerPage.

(** An image that lies between the left and top margins of 10 and the
    lines 5 short of the right and bottom edges of the page. *)
Definition within_page {Image} (pageWidth pageHeight : Q)
    (img : Placed Image) : Prop :=
  (10 <= xPos img)%Q ∧ (xPos img + imgWidth img <= pageWidth - 5)%Q
  ∧ (10 <= yPos img)%Q ∧ (yPos img + imgHeight img <= pageHeight - 5)%Q.

(** Two images with a gutter of 5 between them, side by side or one above
    the other. *)
Definition apart {Image} (a b : Placed Image) : Prop :=
  (xPos a + imgWidth a + 5 <= xPos b)%Q
  ∨ (xPos b + imgWidth b + 5 <= xPos a)%Q
  ∨ (yPos a + imgHeight a + 5 <= yPos b)%Q
  ∨ (yPos b + imgHeight b + 5 <= yPos a)%Q.

(** ** Notions the properties are stated with *)

(** The separator of a re-joined comma list. *)
Definition comma : jsstring := [44%N].

(** The pieces of a string with a run of separators between each two. *)
Fixpoint weave (pieces runs : list jsstring) : jsstring :=
  match pieces with
  | [] => []
  | piece :: pieces' =>
      match runs with
      | [] => piece
      | run :: runs' => piece ++ run ++ weave pieces' runs'
      end
  end.

(** No comma and no newline. *)
Definition separator_free (s : jsstring) : Prop :=
  Forall (λ c, is_separator c = false) s.

(** One or more commas or newlines. *)
Definition separator_run (s : jsstring) : Prop :=
  s ≠ [] ∧ Forall (λ c, is_separator c = true) s.

(** White space only. *)
Definition blank (s : jsstring) : Prop :=
  Forall (λ c, isWhiteSpace c = true) s.

(** No white space at either end. *)
Definition trimmed (s : jsstring) : Prop :=
  (∀ c, head s = Some c → isWhiteSpace c = false) ∧
  (∀ c, last s = Some c → isWhiteSpace c = false).

(** Every code unit is a Basic Latin one. *)
Definition basic_latin (s : jsstring) : Prop := Forall (λ c, (c < 128)%N) s.

(** The batch as the specification words it: one [generateSingleCard] per
    card, each on the full pool, the ids numbered from [i + 1]. *)
Fixpoint independent_cards (Math_random : nat -> Q) (pool : list jsstring)
    (g : Z) (n : nat) (i : Z) : M (list BingoCard) :=
  match n with
  | O => ret []
  | S n' =>
      let! card := generateSingleCard Math_random pool g (cardId_of i) in
      let! rest := independent_cards Math_random pool g n' (i + 1) in
      ret (card :: rest)
  end.

(** The deduplication as the specification words it: the words at the
    positions where no earlier position holds a word equal up to case, in
    the order of their positions. *)
Definition first_occurrences (toLowerCase : jsstring -> jsstring)
    (ws : list jsstring) : list jsstring :=
  omap (λ i,
          match ws !! i with
          | Some w =>
              if decide (toLowerCase w ∈ toLowerCase <$> take i ws)
              then None else Some w
          | None => None
          end)
       (seq 0 (length ws)).

(** Case-insensitive distinctness of a word list, for a given lower-casing. *)
Definition distinct_words (toLowerCase : jsstring -> jsstring)
    (ws : list jsstring) : Prop :=
  NoDup (toLowerCase <$> ws).

(** ** Sample inputs *)

(** The scenario input of the word processor, with its newline. *)
Definition scenario_input : jsstring :=
  js "Apple, apple, Banana" ++ [10%N] ++ js "Cherry".

(** A random source that cycles through 0, 1/3 and 2/3. *)
Definition sample_random (n : nat) : Q := Z.of_nat (n mod 3) # 3.

Definition sample_pool : list jsstring :=
  js <$> ["alpha"; "Bravo"; "charlie"; "Delta"; "echo"]%string.

(** Twenty words, [w1] to [w20]. *)
Definition pool_of_20 : list jsstring :=
  (λ n, js "w" ++ ToString (Z.of_nat n)) <$> seq 1 20.

(** A rasterizer whose image data is the number of the card. *)
Definition sample_canvas (n : nat) : Canvas nat :=
  {| canvas_width := 794; canvas_height := 1123; toDataURL := n |}.

(** A page state with three words and a card left from an earlier run. *)
Definition sample_state : HomeState :=
  {| st_words := take 3 sample_pool;
     st_cardConfig :=
       {| gridSize := 2; numCards := 3; allowRepetition := true |};
     st_generatedCards :=
       [{| card_id := js "card-1"; card_words := sample_pool;
           card_gridSize := 2 |}];
     st_isGenerating := false;
     st_error := [];
     st_success := [];
     st_currentStep := words_step |}.

(** A page state with the five sample words, asking for three 2 x 2 cards. *)
Definition sample_state_ready : HomeState :=
  {| st_words := sample_pool;
     st_cardConfig :=
       {| gridSize := 2; numCards := 3; allowRepetition := true |};
     st_generatedCards := [];
     st_isGenerating := false;
     st_error := js "Need at least 12 unique words, but you have 3";
     st_success := [];
     st_currentStep := words_step |}.

(** A table of three data rows, the first column with a repeated word. *)
Definition sample_table : ParsedFileData :=
  {| columns := [js "Column 1"; js "Column 2"];
     rows := [[js "alpha"; js "one"]; [js " Bravo "]; [js "alpha"; js ""]];
     selectedColumn := 0 |}.

(** * Properties *)

(** ** The host's strings: [trim] *)

Lemma trimStart_spec s : ∃ l, s = l ++ trimStart s ∧ blank l.
Proof.
  induction s as [|c s [l [Hs Hl]]]; simpl.
  - exists []. split; [done | constructor].
  - destruct (isWhiteSpace c) eqn:Hc.
    + exists (c :: l). split; [by rewrite Hs at 1 | by constructor].
    + exists []. split; [done | constructor].
Qed.

Lemma trimStart_head s c :
  head (trimStart s) = Some c → isWhiteSpace c = false.
Proof.
  induction s as [|d s IH]; simpl; [done |].
  destruct (isWhiteSpace d) eqn:Hd; [done |].
  simpl. by intros [= <-].
Qed.

Lemma trimStart_fixed s :
  (∀ c, head s = Some c → isWhiteSpace c = false) → trimStart s = s.
Proof.
  destruct s as [|c s]; simpl; [done |].
  intros H. by rewrite (H c eq_refl).
Qed.

Lemma trimEnd_spec s : ∃ l, s = trimEnd s ++ l ∧ blank l.
Proof.
  unfold trimEnd. destruct (trimStart_spec (reverse s)) as [l [Hs Hl]].
  exists (reverse l). split.
  - rewrite <- reverse_app, <- Hs. by rewrite reverse_involutive.
  - unfold blank in *. by rewrite Forall_reverse.
Qed.

Lemma trimEnd_last s c : last (trimEnd s) = Some c → isWhiteSpace c = false.
Proof.
  unfold trimEnd. rewrite last_reverse. apply trimStart_head.
Qed.

Lemma trimEnd_fixed s :
  (∀ c, last s = Some c → isWhiteSpace c = false) → trimEnd s = s.
Proof.
  intros H. unfold trimEnd. rewrite trimStart_fixed.
  - apply reverse_involutive.
  - intros c. rewrite head_reverse. apply H.
Qed.

Lemma trim_trimmed s : trimmed (trim s).
Proof.
  unfold trim. split.
  - intros c Hc. destruct (trimEnd_spec (trimStart s)) as [l [Hs _]].
    apply (trimStart_head s). rewrite Hs.
    destruct (trimEnd (trimStart s)); [done | by simpl in *].
  - apply trimEnd_last.
Qed.

Lemma trim_fixed s : trimmed s → trim s = s.
Proof.
  intros [Hh Hl]. unfold trim. rewrite (trimStart_fixed s Hh).
  by apply trimEnd_fixed.
Qed.

Lemma trim_spec s :
  ∃ l1 l2, s = l1 ++ trim s ++ l2 ∧ blank l1 ∧ blank l2.
Proof.
  destruct (trimStart_spec s) as [l1 [H1 B1]].
  destruct (trimEnd_spec (trimStart s)) as [l2 [H2 B2]].
  exists l1, l2. unfold trim. by rewrite <- H2, <- H1.
Qed.

Lemma trim_idempotent s : trim (trim s) = trim s.
Proof. apply trim_fixed, trim_trimmed. Qed.

Lemma trim_separator_free s : separator_free s → separator_free (trim s).
Proof.
  intros H. destruct (trim_spec s) as (l1 & l2 & Hs & _).
  unfold separator_free in *. rewrite Hs in H.
  apply Forall_app in H as [_ H]. by apply Forall_app in H as [H _].
Qed.

(** ** The host's strings: [split] and [join] *)

Lemma split_from_nonempty b s : split_from b s ≠ [].
Proof.
  revert b. induction s as [|c s IH]; intros b; simpl; [done |].
  destruct (is_separator c); [destruct b; [apply IH | done] |].
  by destruct (split_from false s).
Qed.

Lemma split_from_separator_free b s :
  Forall separator_free (split_from b s).
Proof.
  revert b. induction s as [|c s IH]; intros b; simpl.
  - repeat constructor.
  - destruct (is_separator c) eqn:Hc.
    + destruct b; [apply IH |]. constructor; [constructor | apply IH].
    + specialize (IH false). destruct (split_from false s) as [|p ps].
      * repeat constructor. done.
      * inversion IH; subst. constructor; [by constructor | done].
Qed.

Lemma weave_cons c piece pieces runs :
  weave ((c :: piece) :: pieces) runs = c :: weave (piece :: pieces) runs.
Proof. by destruct runs. Qed.

(** The input is its pieces with a non-empty run of separators between
    each two; when the scan starts inside a run, the rest of that run comes
    first. *)
Lemma split_from_weave b s :
  ∃ run0 runs,
    s = run0 ++ weave (split_from b s) runs ∧
    (b = false → run0 = []) ∧
    Forall (λ c, is_separator c = true) run0 ∧
    length (split_from b s) = S (length runs) ∧
    Forall separator_run runs.
Proof.
  revert b. induction s as [|c s IH]; intros b; simpl.
  - exists [], []. repeat split; constructor.
  - destruct (is_separator c) eqn:Hc.
    + destruct (IH true) as (run0 & runs & Hs & _ & H0 & Hlen & Hruns).
      destruct b.
      * exists (c :: run0), runs. repeat split; try done.
        -- simpl. by rewrite <- Hs.
        -- by constructor.
      * exists [], ((c :: run0) :: runs). repeat split.
        -- simpl. by rewrite <- Hs.
        -- constructor.
        -- simpl. by rewrite Hlen.
        -- constructor; [| done]. split; [done | by constructor].
    + destruct (IH false) as (run0 & runs & Hs & Hr & H0 & Hlen & Hruns).
      rewrite (Hr eq_refl), app_nil_l in Hs.
      pose proof (split_from_nonempty false s) as Hne.
      destruct (split_from false s) as [|p ps]; [done |].
      exists [], runs. repeat split; try done; try constructor.
      rewrite app_nil_l, weave_cons. f_equal. exact Hs.
Qed.

Lemma split_from_run_irrelevant b s :
  (∀ c, head s = Some c → is_separator c = false) →
  split_from b s = split_from false s.
Proof.
  destruct s as [|c s]; simpl; [done |].
  intros H. by rewrite (H c eq_refl).
Qed.

Lemma split_from_piece b w :
  separator_free w → split_from b w = [w].
Proof.
  induction 1 as [|c w Hc Hw IH]; simpl; [done |].
  rewrite Hc. rewrite (split_from_run_irrelevant b w) in IH.
  - by rewrite IH.
  - intros d Hd. destruct w; [done |]. inversion Hw; subst.
    by injection Hd as <-.
Qed.

Lemma split_from_piece_sep w c rest :
  separator_free w → w ≠ [] → is_separator c = true →
  split_from false (w ++ c :: rest) = w :: split_from true rest.
Proof.
  induction 1 as [|d w Hd Hw IH]; intros Hne Hc; [done |].
  simpl. rewrite Hd.
  destruct w as [|e w].
  - simpl. by rewrite Hc.
  - by rewrite IH.
Qed.

Lemma split_join words :
  words ≠ [] → Forall (λ w, separator_free w ∧ w ≠ []) words →
  split (join comma words) = words.
Proof.
  intros Hne H. unfold split.
  induction H as [|w ws [Hw Hw'] Hws IH]; [done |].
  destruct ws as [|v ws].
  - simpl. by apply split_from_piece.
  - change (join comma (w :: v :: ws))
      with (w ++ 44%N :: join comma (v :: ws)).
    rewrite split_from_piece_sep by done. f_equal.
    rewrite split_from_run_irrelevant; [by apply IH |].
    inversion Hws as [|? ? [Hv Hv'] _]; subst.
    intros c Hc. destruct v as [|d v]; [done |].
    inversion Hv; subst.
    assert (c = d) as ->; [| done].
    destruct ws; simpl in Hc; congruence.
Qed.

(** ** WordProcessor *)

Section WordProcessorFacts.

Variable toLowerCase : jsstring -> jsstring.

Local Abbreviation dedup := (dedup_loop toLowerCase).

Lemma dedup_loop_unique seen unique ws :
  dedup seen unique ws = unique ++ dedup seen [] ws.
Proof.
  revert seen unique. induction ws as [|w ws IH]; intros seen unique; simpl.
  - by rewrite app_nil_r.
  - case_decide; [apply IH |].
    rewrite IH, (IH _ [w]). by rewrite <- app_assoc.
Qed.

Lemma dedup_loop_cons seen w ws :
  dedup seen [] (w :: ws) =
    if decide (toLowerCase w ∈ seen) then dedup seen [] ws
    else w :: dedup ({[toLowerCase w]} ∪ seen) [] ws.
Proof. simpl. case_decide; [done |]. by rewrite dedup_loop_unique. Qed.

Lemma dedup_loop_sublist seen ws : sublist (dedup seen [] ws) ws.
Proof.
  revert seen. induction ws as [|w ws IH]; intros seen.
  - constructor.
  - rewrite dedup_loop_cons. case_decide.
    + by apply sublist_cons.
    + by apply sublist_skip.
Qed.

Lemma dedup_loop_fresh seen ws w :
  w ∈ dedup seen [] ws → toLowerCase w ∉ seen.
Proof.
  revert seen. induction ws as [|v ws IH]; intros seen.
  - simpl. by intros ?%elem_of_nil.
  - rewrite dedup_loop_cons. case_decide as Hv.
    + apply IH.
    + intros [-> | Hw]%elem_of_cons; [done |].
      apply IH in Hw. set_solver.
Qed.

Lemma dedup_loop_NoDup seen ws : NoDup (toLowerCase <$> dedup seen [] ws).
Proof.
  revert seen. induction ws as [|v ws IH]; intros seen.
  - constructor.
  - rewrite dedup_loop_cons. case_decide as Hv; [apply IH |].
    rewrite fmap_cons. constructor; [| apply IH].
    intros (w & Hk & Hw)%list_elem_of_fmap.
    apply dedup_loop_fresh in Hw. set_solver.
Qed.

Lemma dedup_loop_complete seen ws w :
  w ∈ ws →
  toLowerCase w ∈ seen ∨ toLowerCase w ∈ toLowerCase <$> dedup seen [] ws.
Proof.
  revert seen. induction ws as [|v ws IH]; intros seen.
  - by intros ?%elem_of_nil.
  - rewrite dedup_loop_cons. intros [-> | Hw]%elem_of_cons.
    + case_decide; [by left | right]. rewrite fmap_cons. by left.
    + case_decide; [by apply IH |].
      destruct (IH ({[toLowerCase v]} ∪ seen) Hw) as [Hs | Ho].
      * apply elem_of_union in Hs as [->%elem_of_singleton | Hs].
        -- right. rewrite fmap_cons. by left.
        -- by left.
      * right. rewrite fmap_cons. by right.
Qed.

Lemma dedup_loop_first seen ws w :
  w ∈ dedup seen [] ws →
  ∃ l1 l2, ws = l1 ++ w :: l2 ∧ toLowerCase w ∉ toLowerCase <$> l1.
Proof.
  revert seen. induction ws as [|v ws IH]; intros seen.
  - by intros ?%elem_of_nil.
  - rewrite dedup_loop_cons. case_decide as Hv.
    + intros Hw. pose proof (dedup_loop_fresh _ _ _ Hw) as Hf.
      destruct (IH _ Hw) as (l1 & l2 & -> & Hl1).
      exists (v :: l1), l2. split; [done |].
      rewrite fmap_cons. intros [Hk | Hk]%elem_of_cons; [congruence | done].
    + intros [-> | Hw]%elem_of_cons.
      * exists [], ws. split; [done |]. by intros ?%elem_of_nil.
      * pose proof (dedup_loop_fresh _ _ _ Hw) as Hf.
        destruct (IH _ Hw) as (l1 & l2 & -> & Hl1).
        exists (v :: l1), l2. split; [done |].
        rewrite fmap_cons. intros [Hk | Hk]%elem_of_cons; [| done].
        set_solver.
Qed.

Lemma dedup_loop_fixed seen ws :
  NoDup (toLowerCase <$> ws) →
  (∀ w, w ∈ ws → toLowerCase w ∉ seen) →
  dedup seen [] ws = ws.
Proof.
  revert seen. induction ws as [|v ws IH]; intros seen Hnd Hseen; [done |].
  rewrite dedup_loop_cons. rewrite fmap_cons in Hnd.
  apply NoDup_cons in Hnd as [Hv Hnd].
  case_decide as Hin.
  - exfalso. apply (Hseen v); [by left | done].
  - f_equal. apply IH; [done |].
    intros w Hw [Hk%elem_of_singleton | Hs]%elem_of_union.
    + apply Hv, list_elem_of_fmap. by exists w.
    + apply (Hseen w); [by right | done].
Qed.

Lemma processWords_pipeline input :
  processWords toLowerCase input = dedup ∅ [] (candidates input).
Proof. by destruct input. Qed.

Lemma candidates_wellformed input :
  Forall (λ w, separator_free w ∧ w ≠ [] ∧ trimmed w) (candidates input).
Proof.
  unfold candidates. apply Forall_forall. intros w.
  rewrite list_elem_of_filter, list_elem_of_fmap.
  intros [Hlen (p & -> & Hp)]. repeat split.
  - apply trim_separator_free.
    pose proof (split_from_separator_free false input) as H.
    rewrite Forall_forall in H. by apply H.
  - intros E. rewrite E in Hlen. simpl in Hlen. lia.
  - apply trim_trimmed.
  - apply trim_trimmed.
Qed.

Lemma processWords_wellformed input :
  Forall (λ w, separator_free w ∧ w ≠ [] ∧ trimmed w)
    (processWords toLowerCase input).
Proof.
  rewrite processWords_pipeline.
  pose proof (candidates_wellformed input) as H.
  rewrite Forall_forall in H. apply Forall_forall. intros w Hw. apply H.
  by eapply sublist_subseteq; [apply dedup_loop_sublist |].
Qed.

Lemma trim_filter_fixed words :
  Forall (λ w, separator_free w ∧ w ≠ [] ∧ trimmed w) words →
  filter (λ word, (0 < length word)%nat) (trim <$> words) = words.
Proof.
  induction 1 as [|v vs (Hs & Hne & Ht) Hvs IH]; [done |].
  rewrite fmap_cons, trim_fixed by done.
  rewrite filter_cons_True; [f_equal; exact IH |].
  destruct v; [done | simpl; lia].
Qed.

Lemma candidates_join words :
  Forall (λ w, separator_free w ∧ w ≠ [] ∧ trimmed w) words →
  candidates (join comma words) = words.
Proof.
  intros H. destruct words as [|w ws]; [done |].
  unfold candidates. rewrite split_join; [by apply trim_filter_fixed | done |].
  eapply Forall_impl; [exact H |]. by intros v (? & ? & ?).
Qed.

End WordProcessorFacts.

Lemma dedup_loop_ext (f g : jsstring -> jsstring) seen unique ws :
  Forall (λ w, f w = g w) ws →
  dedup_loop f seen unique ws = dedup_loop g seen unique ws.
Proof.
  intros H. revert seen unique.
  induction H as [|w ws Hw _ IH]; intros seen unique; simpl; [done |].
  rewrite Hw. case_decide; apply IH.
Qed.

Lemma omap_ext_elem {A B} (f g : A → option B) (l : list A) :
  (∀ x, x ∈ l → f x = g x) → omap f l = omap g l.
Proof.
  induction l as [|x l IH]; intros H; csimpl; [done |].
  rewrite (H x) by left. rewrite IH; [done |].
  intros y Hy. apply H. by right.
Qed.

Lemma dedup_loop_snoc (toLowerCase : jsstring -> jsstring) seen unique
    (l : list jsstring) (w : jsstring) :
  dedup_loop toLowerCase seen unique (l ++ [w])
  = dedup_loop toLowerCase seen unique l
    ++ (if decide (toLowerCase w ∈ seen
                   ∨ toLowerCase w ∈ toLowerCase <$> l)
        then [] else [w]).
Proof.
  revert seen unique.
  induction l as [|x l IH]; intros seen unique.
  - simpl. destruct (decide (toLowerCase w ∈ seen)) as [Hs | Hs].
    + rewrite decide_True by (by left). by rewrite app_nil_r.
    + rewrite decide_False; [done |].
      intros [H | H]; [done | by apply elem_of_nil in H].
  - rewrite <- app_comm_cons, fmap_cons. cbn [dedup_loop].
    destruct (decide (toLowerCase x ∈ seen)) as [Hx | Hx];
      rewrite IH; f_equal; apply decide_ext.
    + rewrite elem_of_cons. split; [tauto |].
      intros [H | [H | H]]; [tauto | | tauto]. left. by rewrite H.
    + rewrite elem_of_union, elem_of_singleton, elem_of_cons. tauto.
Qed.

Lemma first_occurrences_snoc (toLowerCase : jsstring -> jsstring)
    (l : list jsstring) (w : jsstring) :
  first_occurrences toLowerCase (l ++ [w])
  = first_occurrences toLowerCase l
    ++ (if decide (toLowerCase w ∈ toLowerCase <$> l) then [] else [w]).
Proof.
  unfold first_occurrences.
  rewrite length_app, Nat.add_1_r, seq_S, omap_app. f_equal.
  - apply omap_ext_elem. intros i Hi. apply elem_of_seq in Hi.
    rewrite lookup_app_l by lia. rewrite take_app_le by lia. done.
  - simpl. rewrite list_lookup_middle by done.
    rewrite take_app_length. by case_decide.
Qed.

Lemma dedup_loop_first_occurrences (toLowerCase : jsstring -> jsstring)
    (ws : list jsstring) :
  dedup_loop toLowerCase ∅ [] ws = first_occurrences toLowerCase ws.
Proof.
  induction ws as [|w l IH] using rev_ind; [done |].
  rewrite dedup_loop_snoc, first_occurrences_snoc, IH. f_equal.
  apply decide_ext. split; [| by right].
  intros [H | H]; [by apply elem_of_empty in H | done].
Qed.

Lemma first_occurrences_sample :
  first_occurrences ascii_toLowerCase [js "a"; js "B"; js "a"; js "b"]
  = [js "a"; js "B"].
Proof. by vm_compute. Qed.

(** C5: [processWords] cuts its input at the runs of one or more commas or
    newlines (the input is the pieces with a non-empty run of separators
    between each two, and no piece holds a separator), trims each piece (the
    trimmed piece is the piece without the white space at its two ends),
    drops the empty ones, and of the candidates left keeps, in their order
    and with their own casing, the first of each class of words equal up to
    case: the result is the candidates at the positions that no candidate
    equal up to case precedes, in the order of these positions.  With a
    lower-casing that is the usual one on Basic Latin text,
    ["Apple, apple, Banana\nCherry"] gives [["Apple"; "Banana"; "Cherry"]]. *)
Theorem processWords_spec (toLowerCase : jsstring -> jsstring) :
  (∀ s, basic_latin s → toLowerCase s = ascii_toLowerCase s) →
  (∀ input,
     let pieces := split input in
     let kept := filter (λ w, (0 < length w)%nat) (trim <$> pieces) in
     let out := processWords toLowerCase input in
     (∃ runs, input = weave pieces runs ∧ length pieces = S (length runs)
              ∧ Forall separator_run runs)
     ∧ Forall separator_free pieces
     ∧ (∀ p, trimmed (trim p)
             ∧ ∃ l1 l2, p = l1 ++ trim p ++ l2 ∧ blank l1 ∧ blank l2)
     ∧ out `sublist_of` kept
     ∧ distinct_words toLowerCase out
     ∧ (∀ w, w ∈ kept → toLowerCase w ∈ toLowerCase <$> out)
     ∧ (∀ w, w ∈ out →
          ∃ l1 l2, kept = l1 ++ w :: l2
                   ∧ toLowerCase w ∉ toLowerCase <$> l1)
     ∧ out = first_occurrences toLowerCase kept)
  ∧ processWords toLowerCase scenario_input
    = [js "Apple"; js "Banana"; js "Cherry"].
Proof.
  intros Hlower. split.
  - intros input pieces kept out.
    change kept with (candidates input). subst out.
    rewrite processWords_pipeline. repeat split.
    + destruct (split_from_weave false input)
        as (run0 & runs & Hs & Hr & _ & Hlen & Hruns).
      exists runs. rewrite (Hr eq_refl) in Hs. done.
    + apply split_from_separator_free.
    + apply (trim_trimmed p).
    + apply (trim_trimmed p).
    + apply trim_spec.
    + apply dedup_loop_sublist.
    + apply dedup_loop_NoDup.
    + intros w Hw.
      destruct (dedup_loop_complete toLowerCase ∅ _ w Hw) as [H | H];
        [by apply elem_of_empty in H | done].
    + apply dedup_loop_first.
    + apply dedup_loop_first_occurrences.
  - rewrite processWords_pipeline.
    rewrite (dedup_loop_ext toLowerCase ascii_toLowerCase).
    + by vm_compute.
    + apply Forall_forall. intros w Hw. apply Hlower.
      revert w Hw. apply Forall_forall.
      apply (bool_decide_unpack _). by vm_compute.
Qed.

Lemma processWords_spec_witness :
  processWords ascii_toLowerCase scenario_input
  = [js "Apple"; js "Banana"; js "Cherry"].
Proof.
  apply (processWords_spec ascii_toLowerCase). intros s _. reflexivity.
Defined.

(** C9: for every input [x], joining the words of [processWords x] with
    commas and processing the result again gives the same list of words. *)
Theorem processWords_idempotent (toLowerCase : jsstring -> jsstring)
    (x : jsstring) :
  processWords toLowerCase (join comma (processWords toLowerCase x))
  = processWords toLowerCase x.
Proof.
  rewrite (processWords_pipeline _ (join comma _)).
  rewrite candidates_join by apply processWords_wellformed.
  apply dedup_loop_fixed.
  - rewrite processWords_pipeline. apply dedup_loop_NoDup.
  - intros w _. apply not_elem_of_empty.
Qed.


(** ** CardGenerator *)

Lemma insert_Permutation {T} (a : list T) (j : nat) (x y : T) :
  a !! j = Some y → y :: <[j := x]> a ≡ₚ x :: a.
Proof.
  revert j. induction a as [|z a IH]; intros [|j] Hj; simplify_eq/=.
  - apply perm_swap.
  - rewrite perm_swap, (IH j Hj). apply perm_swap.
Qed.

Lemma swap_Permutation {T} (a : list T) (i j : nat) :
  (i < length a)%nat → (j < length a)%nat → swap a i j ≡ₚ a.
Proof.
  intros Hi Hj. unfold swap.
  destruct (lookup_lt_is_Some_2 a i Hi) as [ai Hai].
  destruct (lookup_lt_is_Some_2 a j Hj) as [aj Haj].
  rewrite Hai, Haj.
  destruct (decide (i = j)) as [-> | Hne].
  - simplify_eq. rewrite list_insert_insert_eq. by rewrite list_insert_id.
  - apply (Permutation_cons_inv (a := aj)).
    rewrite insert_Permutation.
    + apply insert_Permutation. done.
    + by rewrite list_lookup_insert_ne.
Qed.

Lemma swap_length {T} (a : list T) (i j : nat) :
  length (swap a i j) = length a.
Proof.
  unfold swap. destruct (a !! j), (a !! i); try done.
  by rewrite !length_insert.
Qed.

Lemma floor_scaled_range (r : Q) (n : nat) :
  (0 <= r < 1)%Q → (0 < n)%nat → (floor_scaled r n < n)%nat.
Proof.
  intros [H0 H1] Hn. unfold floor_scaled.
  assert (Qfloor (r * inject_Z (Z.of_nat n)) < Z.of_nat n) as H; [| lia].
  rewrite Zlt_Qlt.
  eapply Qle_lt_trans; [apply Qfloor_le |].
  rewrite <- (Qmult_1_l (inject_Z (Z.of_nat n))) at 2.
  apply Qmult_lt_compat_r; [| done].
  rewrite <- (Zlt_Qlt 0). lia.
Qed.

Section CardGeneratorFacts.

Variable Math_random : nat -> Q.
Hypothesis Math_random_range : ∀ k, (0 <= Math_random k < 1)%Q.

Lemma shuffle_loop_Permutation {T} (i : nat) (l : list T) (k : nat) :
  (i < length l)%nat →
  ∃ l', shuffle_loop Math_random i l k = (inr l', (k + i)%nat) ∧ l' ≡ₚ l.
Proof.
  revert l k. induction i as [|i IH]; intros l k Hi.
  - exists l. simpl. unfold ret. by rewrite Nat.add_0_r.
  - cbn [shuffle_loop]. unfold bind, random.
    pose proof (floor_scaled_range (Math_random k) (S i + 1)
                  (Math_random_range k) ltac:(lia)) as Hj.
    set (j := floor_scaled (Math_random k) (S i + 1)) in *.
    destruct (IH (swap l (S i) j) (S k)) as (l' & Hl' & Hp).
    { rewrite swap_length. lia. }
    exists l'. split.
    + rewrite Hl'. f_equal. lia.
    + rewrite Hp. apply swap_Permutation; lia.
Qed.

Lemma shuffleArray_Permutation {T} (array : list T) (k : nat) :
  ∃ l', shuffleArray Math_random array k
          = (inr l', (k + (length array - 1))%nat) ∧ l' ≡ₚ array.
Proof.
  unfold shuffleArray. destruct array as [|x array].
  - exists []. simpl. unfold ret. by rewrite Nat.add_0_r.
  - apply shuffle_loop_Permutation. simpl. lia.
Qed.

Lemma generateSingleCard_ok (availableWords : list jsstring) (g : Z)
    (cardId : jsstring) (k : nat) :
  g * g <= Z.of_nat (length availableWords) →
  ∃ shuffled,
    shuffled ≡ₚ availableWords ∧
    generateSingleCard Math_random availableWords g cardId k =
      (inr {| card_id := cardId;
              card_words := take (Z.to_nat (g * g)) shuffled;
              card_gridSize := g |},
       (k + (length availableWords - 1))%nat).
Proof.
  intros Hlen. unfold generateSingleCard.
  destruct (Z.ltb_spec (Z.of_nat (length availableWords)) (g * g)); [lia |].
  destruct (shuffleArray_Permutation availableWords k) as (l' & Hl' & Hp).
  exists l'. split; [done |]. unfold bind. by rewrite Hl'.
Qed.

End CardGeneratorFacts.

(** The [throw] paths do not look at the random source. *)
Lemma generateSingleCard_insufficient Math_random
    (availableWords : list jsstring) (g : Z) (cardId : jsstring) (k : nat) :
  Z.of_nat (length availableWords) < g * g →
  generateSingleCard Math_random availableWords g cardId k =
    (inl (Error (js "Not enough unique words. Need " ++ ToString (g * g)
                 ++ js ", have "
                 ++ ToString (Z.of_nat (length availableWords)))), k).
Proof.
  intros Hlen. unfold generateSingleCard.
  by destruct (Z.ltb_spec (Z.of_nat (length availableWords)) (g * g)); [| lia].
Qed.

Lemma generateBingoCards_insufficient Math_random (words : list jsstring)
    (config : CardConfig) (k : nat) :
  Z.of_nat (length words) < gridSize config * gridSize config →
  generateBingoCards Math_random words config k =
    (inl (Error (js "Not enough unique words. Need at least "
                 ++ ToString (gridSize config * gridSize config)
                 ++ js ", have " ++ ToString (Z.of_nat (length words)))), k).
Proof.
  intros Hlen. unfold generateBingoCards.
  by destruct (Z.ltb_spec (Z.of_nat (length words))
                 (gridSize config * gridSize config)); [| lia].
Qed.

Lemma cards_loop_independent Math_random words config n i cards k :
  cards_loop Math_random words config n i cards k =
    (let! rest := independent_cards Math_random words (gridSize config) n i in
     ret (cards ++ rest)) k.
Proof.
  revert i cards k. induction n as [|n IH]; intros i cards k.
  - simpl. unfold bind, ret. by rewrite app_nil_r.
  - cbn [cards_loop independent_cards].
    destruct (allowRepetition config); unfold bind, ret;
      (destruct (generateSingleCard Math_random words (gridSize config)
                   (cardId_of i) k) as [[e | card] k']; [done |]);
      rewrite IH; unfold bind, ret;
      (destruct (independent_cards Math_random words (gridSize config) n
                   (i + 1) k') as [[e | rest] k'']; [done |]);
      by rewrite <- app_assoc.
Qed.

Lemma sample_random_range n : (0 <= sample_random n < 1)%Q.
Proof.
  unfold sample_random, Qle, Qlt. cbn [Qnum Qden].
  pose proof (Nat.mod_upper_bound n 3). lia.
Qed.

(** C1: for every pool [P] of pairwise case-insensitively distinct words and
    every grid size [g] with [g * g <= |P|], whatever values in [0, 1) the
    random source gives, [generateSingleCard P g cardId] returns a card (it
    does not throw) whose [words] has exactly [g * g] entries, pairwise
    distinct case-insensitively, each of them an element of [P]; the card
    carries the id and the grid size it was asked for. *)
Theorem generateSingleCard_distinct_from_pool
    (toLowerCase : jsstring -> jsstring) (Math_random : nat -> Q)
    (P : list jsstring) (g : Z) (cardId : jsstring) (k : nat) :
  (∀ n, (0 <= Math_random n < 1)%Q) →
  distinct_words toLowerCase P →
  g * g <= Z.of_nat (length P) →
  ∃ card k',
    generateSingleCard Math_random P g cardId k = (inr card, k') ∧
    length (card_words card) = Z.to_nat (g * g) ∧
    distinct_words toLowerCase (card_words card) ∧
    (∀ w, w ∈ card_words card → w ∈ P) ∧
    card_id card = cardId ∧ card_gridSize card = g.
Proof.
  intros Hrange Hdistinct Hlen.
  destruct (generateSingleCard_ok Math_random Hrange P g cardId k Hlen)
    as (shuffled & Hperm & Hcard).
  eexists _, _. split; [exact Hcard |]. cbn [card_words card_id card_gridSize].
  repeat split.
  - rewrite length_take, (Permutation_length Hperm). lia.
  - unfold distinct_words in *.
    apply (sublist_NoDup _ (toLowerCase <$> shuffled)).
    + by rewrite Hperm.
    + apply fmap_sublist, sublist_take.
  - intros w Hw. rewrite <- Hperm. by apply (subseteq_take (Z.to_nat (g * g))).
Qed.

Lemma generateSingleCard_distinct_from_pool_witness :
  ∃ card k',
    generateSingleCard sample_random sample_pool 2 (js "card-1") 0%nat
      = (inr card, k') ∧
    length (card_words card) = Z.to_nat (2 * 2) ∧
    distinct_words ascii_toLowerCase (card_words card) ∧
    (∀ w, w ∈ card_words card → w ∈ sample_pool) ∧
    card_id card = js "card-1" ∧ card_gridSize card = 2.
Proof.
  apply (generateSingleCard_distinct_from_pool ascii_toLowerCase sample_random
           sample_pool 2 (js "card-1") 0%nat).
  - exact sample_random_range.
  - unfold distinct_words. apply (bool_decide_unpack _). vm_compute. exact I.
  - vm_compute. discriminate.
Defined.

(** C2: for every pool [P] and grid size [g] with [|P| < g * g], both
    [generateSingleCard P g cardId] and [generateBingoCards P config] with
    [config.gridSize = g] throw an error whose message gives the number of
    words needed, [g * g], and the number there is, [|P|]; nothing is
    returned, and no call of the random source has been made (the count of
    calls is the one before): [generateBingoCards] fails on its check, before
    any card is generated, whatever [numCards] and [allowRepetition] are. *)
Theorem insufficient_words_rejected (Math_random : nat -> Q)
    (P : list jsstring) (g N : Z) (b : bool) (cardId : jsstring) (k : nat) :
  Z.of_nat (length P) < g * g →
  generateSingleCard Math_random P g cardId k =
    (inl (Error (js "Not enough unique words. Need " ++ ToString (g * g)
                 ++ js ", have " ++ ToString (Z.of_nat (length P)))), k)
  ∧ generateBingoCards Math_random P
      {| gridSize := g; numCards := N; allowRepetition := b |} k =
    (inl (Error (js "Not enough unique words. Need at least "
                 ++ ToString (g * g) ++ js ", have "
                 ++ ToString (Z.of_nat (length P)))), k).
Proof.
  intros Hlen. split.
  - by apply generateSingleCard_insufficient.
  - by apply generateBingoCards_insufficient.
Qed.

Lemma insufficient_words_rejected_witness :
  generateSingleCard sample_random pool_of_20 5 (js "card-1") 0%nat =
    (inl (Error (js "Not enough unique words. Need 25, have 20")), 0%nat)
  ∧ generateBingoCards sample_random pool_of_20
      {| gridSize := 5; numCards := 3; allowRepetition := false |} 0%nat =
    (inl (Error (js "Not enough unique words. Need at least 25, have 20")),
     0%nat).
Proof.
  apply (insufficient_words_rejected sample_random pool_of_20 5 3 false
           (js "card-1") 0%nat).
  vm_compute. reflexivity.
Defined.

(** C3: for every word count [n], grid size [g] and number of cards [k],
    [isWordCountSufficient n g k] is true exactly when [n >= g * g]; the
    result does not depend on [k] (nine words are enough for two 3x3 cards,
    although [3 * 3 * 2 = 18]). *)
Theorem isWordCountSufficient_threshold (n g k : Z) :
  (isWordCountSufficient n g k = true ↔ n >= g * g)
  ∧ (∀ k', isWordCountSufficient n g k' = isWordCountSufficient n g k)
  ∧ isWordCountSufficient 9 3 2 = true
  ∧ calculateRequiredWords 3 2 = 18.
Proof.
  unfold isWordCountSufficient. repeat split; try done.
  - intros H%Z.geb_le. lia.
  - intros H. apply Z.geb_le. lia.
Qed.

(** C4: for every pool [P], grid size [g], number of cards [N] and the same
    random source (the same values, the same number of calls made before),
    [generateBingoCards] gives the same result with [allowRepetition] true
    and false; with either value it is the up-front check followed by one
    [generateSingleCard] per card on the whole pool [P], each continuing the
    random source where the previous one left it, with the ids [card-1],
    [card-2], ... *)
Theorem allowRepetition_noninterference (Math_random : nat -> Q)
    (P : list jsstring) (g N : Z) (k : nat) :
  generateBingoCards Math_random P
    {| gridSize := g; numCards := N; allowRepetition := true |} k =
  generateBingoCards Math_random P
    {| gridSize := g; numCards := N; allowRepetition := false |} k
  ∧ ∀ b,
      generateBingoCards Math_random P
        {| gridSize := g; numCards := N; allowRepetition := b |} k =
      (if Z.of_nat (length P) <? g * g then
         throw (Error (js "Not enough unique words. Need at least "
                       ++ ToString (g * g) ++ js ", have "
                       ++ ToString (Z.of_nat (length P))))
       else independent_cards Math_random P g (Z.to_nat N) 0) k.
Proof.
  assert (∀ b,
      generateBingoCards Math_random P
        {| gridSize := g; numCards := N; allowRepetition := b |} k =
      (if Z.of_nat (length P) <? g * g then
         throw (Error (js "Not enough unique words. Need at least "
                       ++ ToString (g * g) ++ js ", have "
                       ++ ToString (Z.of_nat (length P))))
       else independent_cards Math_random P g (Z.to_nat N) 0) k) as H.
  { intros b. unfold generateBingoCards. cbn [gridSize numCards].
    destruct (Z.of_nat (length P) <? g * g); [done |].
    rewrite cards_loop_independent. cbn [gridSize]. unfold bind, ret.
    by destruct (independent_cards Math_random P g (Z.to_nat N) 0 k)
      as [[e | cards] k']. }
  split; [| exact H]. by rewrite !H.
Qed.


(** ** binary64 *)

Lemma pow2_pos e : (0 < pow2 e)%Q.
Proof. apply Qpower_0_lt. reflexivity. Qed.

Lemma pow2_add a b : (pow2 (a + b) == pow2 a * pow2 b)%Q.
Proof. apply Qpower_plus. discriminate. Qed.

Lemma pow2_le a b : a <= b → (pow2 a <= pow2 b)%Q.
Proof. intros H. apply Qpower_le_compat_l; [exact H | discriminate]. Qed.

Lemma pow2_lt_inv a b : (pow2 a < pow2 b)%Q → a < b.
Proof. intros H. apply (Qpower_lt_compat_l_inv 2); [exact H | reflexivity]. Qed.

Lemma pow2_Z n : 0 <= n → (pow2 n == inject_Z (2 ^ n))%Q.
Proof. intros H. unfold pow2. symmetry. by apply (Zpower_Qpower 2). Qed.

Lemma round_half_even_floor y :
  round_half_even y = Qfloor y ∨ round_half_even y = Qfloor y + 1.
Proof.
  unfold round_half_even.
  destruct (_ ?= _)%Q; [destruct (Z.even _) | |]; auto.
Qed.

(** Rounding to an integer moves a number by at most one half. *)
Lemma round_half_even_error y :
  (Qabs (inject_Z (round_half_even y) - y) <= 1 # 2)%Q.
Proof.
  pose proof (Qfloor_le y) as Hle. pose proof (Qlt_floor y) as Hlt.
  rewrite inject_Z_plus in Hlt. change (inject_Z 1) with 1%Q in Hlt.
  apply Qabs_Qle_condition. unfold round_half_even.
  destruct (Qcompare_spec (y - inject_Z (Qfloor y)) (1 # 2)) as [E | E | E];
    [destruct (Z.even _) | |];
    rewrite ?inject_Z_plus; change (inject_Z 1) with 1%Q; split; lra.
Qed.

Lemma round_half_even_mono y1 y2 :
  (y1 <= y2)%Q → round_half_even y1 <= round_half_even y2.
Proof.
  intros H. pose proof (Qfloor_resp_le _ _ H) as Hf.
  destruct (Z.eq_dec (Qfloor y1) (Qfloor y2)) as [E | Hne].
  - unfold round_half_even. rewrite E.
    destruct (Qcompare_spec (y1 - inject_Z (Qfloor y2)) (1 # 2)),
             (Qcompare_spec (y2 - inject_Z (Qfloor y2)) (1 # 2));
      try destruct (Z.even _); try lia; exfalso; lra.
  - destruct (round_half_even_floor y1) as [-> | ->],
             (round_half_even_floor y2) as [-> | ->]; lia.
Qed.

Lemma round_half_even_proper y1 y2 :
  (y1 == y2)%Q → round_half_even y1 = round_half_even y2.
Proof.
  intros E. apply Z.le_antisymm; apply round_half_even_mono; lra.
Qed.

Lemma round_half_even_Z z : round_half_even (inject_Z z) = z.
Proof.
  unfold round_half_even. rewrite Qfloor_Z.
  destruct (Qcompare_spec (inject_Z z - inject_Z z) (1 # 2));
    [exfalso; lra | done | exfalso; lra].
Qed.

Lemma Qabs_num_den x : (Qabs x * inject_Z (Z.pos (Qden x))
                        == inject_Z (Z.abs (Qnum x)))%Q.
Proof.
  destruct x as [n d]. unfold Qabs, Qeq, Qmult, inject_Z. simpl. lia.
Qed.

(** [ilog2 x] is the exponent of the power of two at or below [|x|]. *)
Lemma ilog2_spec x :
  ¬ (x == 0)%Q →
  (pow2 (ilog2 x) <= Qabs x)%Q ∧ (Qabs x < pow2 (ilog2 x + 1))%Q.
Proof.
  intros Hx.
  set (n := Z.abs (Qnum x)). set (d := Z.pos (Qden x)).
  assert (0 < n) as Hn.
  { unfold n. destruct x as [[|p|p] q]; simpl; try lia.
    exfalso. apply Hx. reflexivity. }
  assert (0 < d) as Hd by (unfold d; lia).
  destruct (Z.log2_spec n Hn) as [Hn1 Hn2].
  destruct (Z.log2_spec d Hd) as [Hd1 Hd2].
  pose proof (Z.log2_nonneg n) as Ha. pose proof (Z.log2_nonneg d) as Hb.
  set (a := Z.log2 n) in *. set (b := Z.log2 d) in *.
  pose proof (Qabs_num_den x) as HX. fold n d in HX.
  pose proof (Qabs_nonneg x) as HX0.
  assert (pow2 (a - b - 1) < Qabs x)%Q as Hlow.
  { pose proof (pow2_add (a - b - 1) (b + 1)) as E.
    replace (a - b - 1 + (b + 1)) with a in E by lia.
    rewrite (pow2_Z a), (pow2_Z (b + 1)) in E by lia.
    pose proof (pow2_pos (a - b - 1)) as Hp.
    rewrite Zle_Qle in Hn1. rewrite Zlt_Qlt in Hd2.
    replace (Z.succ b) with (b + 1) in Hd2 by lia.
    assert (0 < inject_Z d)%Q as Hd' by (rewrite <- (Zlt_Qlt 0); lia).
    revert E HX Hn1 Hd2 Hp Hd' HX0.
    generalize (pow2 (a - b - 1)), (Qabs x), (inject_Z (2 ^ a)),
      (inject_Z (2 ^ (b + 1))), (inject_Z n), (inject_Z d).
    intros P X A B N D E HX Hn1 Hd2 Hp Hd' HX0.
    destruct (Qlt_le_dec P X) as [| Hc]; [done | exfalso].
    assert (X * D <= P * D)%Q by (apply Qmult_le_compat_r; lra).
    assert (P * D < P * B)%Q by (apply Qmult_lt_l; lra).
    lra. }
  assert (Qabs x < pow2 (a - b + 1))%Q as Hup.
  { pose proof (pow2_add (a - b + 1) b) as E.
    replace (a - b + 1 + b) with (a + 1) in E by lia.
    rewrite (pow2_Z (a + 1)), (pow2_Z b) in E by lia.
    pose proof (pow2_pos (a - b + 1)) as Hp.
    rewrite Zlt_Qlt in Hn2. rewrite Zle_Qle in Hd1.
    replace (Z.succ a) with (a + 1) in Hn2 by lia.
    assert (0 < inject_Z (2 ^ b))%Q as Hb'
      by (rewrite <- (Zlt_Qlt 0); lia).
    revert E HX Hn2 Hd1 Hp Hb' HX0.
    generalize (pow2 (a - b + 1)), (Qabs x), (inject_Z (2 ^ (a + 1))),
      (inject_Z (2 ^ b)), (inject_Z n), (inject_Z d).
    intros P X A B N D E HX Hn2 Hd1 Hp Hb' HX0.
    destruct (Qlt_le_dec X P) as [| Hc]; [done | exfalso].
    assert (P * B <= X * B)%Q by (apply Qmult_le_compat_r; lra).
    assert (B * X <= D * X)%Q by (apply Qmult_le_compat_r; lra).
    lra. }
  unfold ilog2. fold n d a b.
  destruct (Qle_bool (pow2 (a - b)) (Qabs x)) eqn:Ht.
  - apply Qle_bool_iff in Ht. done.
  - assert (Qabs x < pow2 (a - b))%Q as Hlt.
    { apply Qnot_le_lt. intros Hc. apply Qle_bool_iff in Hc. congruence. }
    replace (a - b - 1 + 1) with (a - b) by lia. split; [lra | done].
Qed.

Lemma fl_zero x : (x == 0)%Q → fl x = 0%Q.
Proof. intros H. unfold fl. apply Qeq_bool_iff in H. by rewrite H. Qed.

Lemma fl_nonzero x :
  ¬ (x == 0)%Q →
  fl x = (inject_Z (Z.sgn (Qnum x)
                    * round_half_even (Qabs x / pow2 (binade x)))
          * pow2 (binade x))%Q.
Proof.
  intros H. unfold fl. destruct (Qeq_bool x 0) eqn:E; [| done].
  by apply Qeq_bool_iff in E.
Qed.

Lemma fl_positive x :
  (0 < x)%Q →
  (fl x == inject_Z (round_half_even (x / pow2 (binade x)))
           * pow2 (binade x))%Q.
Proof.
  intros H. rewrite fl_nonzero by lra.
  assert (Z.sgn (Qnum x) = 1) as ->.
  { destruct x as [[|p|p] d]; [| done |]; by unfold Qlt in H. }
  rewrite Z.mul_1_l.
  by rewrite (round_half_even_proper (Qabs x / pow2 (binade x))
                (x / pow2 (binade x)))
    by (rewrite Qabs_pos by lra; reflexivity).
Qed.

Lemma binade_opp x : binade (- x) = binade x.
Proof.
  unfold binade, ilog2. destruct x as [n d]. simpl.
  by rewrite Z.abs_opp.
Qed.

Lemma fl_opp x : (fl (- x) == - fl x)%Q.
Proof.
  destruct (Qeq_dec x 0) as [E | Hne].
  - rewrite (fl_zero x E), (fl_zero (- x)) by lra. reflexivity.
  - rewrite (fl_nonzero x Hne), (fl_nonzero (- x)) by lra.
    rewrite binade_opp.
    assert (Qabs (- x) = Qabs x) as ->
      by (destruct x as [n d]; unfold Qabs; simpl; by rewrite Z.abs_opp).
    assert (Qnum (- x) = - Qnum x) as -> by by destruct x.
    rewrite Z.sgn_opp, Z.mul_opp_l, inject_Z_opp. ring.
Qed.

(** The binary64 rounding error is at most half a unit in the last place. *)
Lemma fl_error x : (Qabs (fl x - x) <= pow2 (binade x) * (1 # 2))%Q.
Proof.
  pose proof (pow2_pos (binade x)) as HP.
  assert (∀ z, (0 < z)%Q →
            (Qabs (fl z - z) <= pow2 (binade z) * (1 # 2))%Q) as Hpos.
  { intros z Hz. rewrite fl_positive by done.
    pose proof (pow2_pos (binade z)) as Hp.
    pose proof (round_half_even_error (z / pow2 (binade z))) as Hm.
    apply Qabs_Qle_condition in Hm. apply Qabs_Qle_condition.
    assert (z / pow2 (binade z) * pow2 (binade z) == z)%Q as Hy
      by (field; lra).
    destruct Hm as [Hm1 Hm2].
    set (P := pow2 (binade z)) in *. set (y := (z / P)%Q) in *.
    set (m := inject_Z (round_half_even y)) in *. clearbody m y P.
    assert ((m - y) * P <= (1 # 2) * P)%Q
      by (apply Qmult_le_compat_r; lra).
    assert (- (1 # 2) * P <= (m - y) * P)%Q
      by (apply Qmult_le_compat_r; lra).
    split; lra. }
  destruct (Q_dec x 0) as [[Hneg | Hgt] | E].
  - specialize (Hpos (- x)%Q ltac:(lra)).
    rewrite binade_opp, fl_opp in Hpos.
    assert (fl x - x == - (- fl x - - x))%Q as -> by ring.
    by rewrite Qabs_opp.
  - by apply Hpos.
  - rewrite (fl_zero x E).
    assert (0 - x == 0)%Q as -> by lra. change (Qabs 0) with 0%Q. lra.
Qed.

Lemma binade_below x E :
  ¬ (x == 0)%Q → (Qabs x < pow2 E)%Q → -1021 <= E → binade x <= E - 53.
Proof.
  intros Hx Hlt HE. destruct (ilog2_spec x Hx) as [Hl _].
  assert (ilog2 x < E) by (apply pow2_lt_inv; lra).
  unfold binade. lia.
Qed.

(** Below [2^E] (in the normal range) the rounding error is at most
    [2^(E - 54)]. *)
Lemma fl_error_below x E :
  (Qabs x < pow2 E)%Q → -1021 <= E →
  (Qabs (fl x - x) <= pow2 (E - 54))%Q.
Proof.
  intros Hlt HE. destruct (Qeq_dec x 0) as [E0 | Hne].
  - rewrite (fl_zero x E0). assert (0 - x == 0)%Q as -> by lra.
    pose proof (pow2_pos (E - 54)). change (Qabs 0) with 0%Q. lra.
  - pose proof (fl_error x) as Herr.
    pose proof (pow2_le _ _ (binade_below x E Hne Hlt HE)) as Hb.
    pose proof (pow2_add (E - 54) 1) as Ea.
    replace (E - 54 + 1) with (E - 53) in Ea by lia.
    change (pow2 1) with 2%Q in Ea. lra.
Qed.

Lemma fl_nonneg x : (0 <= x)%Q → (0 <= fl x)%Q.
Proof.
  intros H. destruct (Qeq_dec x 0) as [E | Hne].
  - rewrite (fl_zero x E). lra.
  - rewrite fl_positive by lra.
    pose proof (pow2_pos (binade x)) as Hp.
    apply Qmult_le_0_compat; [| lra].
    rewrite <- (Zle_Qle 0), <- (round_half_even_Z 0).
    apply round_half_even_mono. change (inject_Z 0) with 0%Q.
    apply Qle_shift_div_l; lra.
Qed.

Lemma fl_mono_pos x y : (0 < x)%Q → (x <= y)%Q → (fl x <= fl y)%Q.
Proof.
  intros Hx Hxy.
  destruct (ilog2_spec x ltac:(lra)) as [Hx1 Hx2].
  destruct (ilog2_spec y ltac:(lra)) as [Hy1 Hy2].
  rewrite Qabs_pos in Hx1, Hx2, Hy1, Hy2 by lra.
  assert (ilog2 x <= ilog2 y) as Hlog.
  { assert (ilog2 x < ilog2 y + 1) by (apply pow2_lt_inv; lra). lia. }
  rewrite (fl_positive x), (fl_positive y) by lra.
  pose proof (pow2_pos (binade x)) as Hp1.
  pose proof (pow2_pos (binade y)) as Hp2.
  destruct (Z.eq_dec (binade x) (binade y)) as [E | Hne].
  - rewrite E. apply Qmult_le_compat_r; [| lra].
    rewrite <- Zle_Qle. apply round_half_even_mono.
    apply Qmult_le_compat_r; [done |]. apply Qinv_le_0_compat. lra.
  - assert (binade x < binade y) as Hlt by (unfold binade in *; lia).
    assert (binade y = ilog2 y - 52) as Ey by (unfold binade in *; lia).
    assert (ilog2 x + 1 <= binade x + 53) as Ex by (unfold binade; lia).
    assert (round_half_even (x / pow2 (binade x)) <= 2 ^ 53) as Hm1.
    { rewrite <- (round_half_even_Z (2 ^ 53)).
      apply round_half_even_mono. apply Qle_shift_div_r; [done |].
      rewrite <- (pow2_Z 53), <- pow2_add by lia.
      pose proof (pow2_le _ _ Ex). rewrite Z.add_comm. lra. }
    assert (2 ^ 52 <= round_half_even (y / pow2 (binade y))) as Hm2.
    { rewrite <- (round_half_even_Z (2 ^ 52)).
      apply round_half_even_mono. apply Qle_shift_div_l; [done |].
      rewrite <- (pow2_Z 52), <- pow2_add by lia.
      replace (52 + binade y) with (ilog2 y) by lia. done. }
    rewrite Zle_Qle in Hm1, Hm2.
    rewrite <- (pow2_Z 53) in Hm1 by lia.
    rewrite <- (pow2_Z 52) in Hm2 by lia.
    pose proof (pow2_add 53 (binade x)) as E1.
    pose proof (pow2_add 52 (binade y)) as E2.
    assert (53 + binade x <= 52 + binade y) as Hle by lia.
    apply pow2_le in Hle.
    set (m1 := inject_Z (round_half_even (x / pow2 (binade x)))) in *.
    set (m2 := inject_Z (round_half_even (y / pow2 (binade y)))) in *.
    clearbody m1 m2.
    set (P1 := pow2 (binade x)) in *. set (P2 := pow2 (binade y)) in *.
    set (A := pow2 (53 + binade x)) in *.
    set (B := pow2 (52 + binade y)) in *.
    set (C := pow2 53) in *. set (D := pow2 52) in *.
    clearbody P1 P2 A B C D.
    assert (m1 * P1 <= C * P1)%Q by (apply Qmult_le_compat_r; lra).
    assert (D * P2 <= m2 * P2)%Q by (apply Qmult_le_compat_r; lra).
    lra.
Qed.

(** Rounding to binary64 keeps the order. *)
Lemma fl_mono x y : (x <= y)%Q → (fl x <= fl y)%Q.
Proof.
  intros H. destruct (Qlt_le_dec 0 x) as [Hx | Hx].
  - by apply fl_mono_pos.
  - destruct (Qlt_le_dec y 0) as [Hy | Hy].
    + pose proof (fl_mono_pos (- y) (- x) ltac:(lra) ltac:(lra)) as Hm.
      rewrite !fl_opp in Hm. lra.
    + pose proof (fl_nonneg y Hy).
      pose proof (fl_nonneg (- x) ltac:(lra)) as Hn.
      rewrite fl_opp in Hn. lra.
Qed.

Lemma fl_proper x y : (x == y)%Q → (fl x == fl y)%Q.
Proof. intros E. apply Qle_antisym; apply fl_mono; lra. Qed.

(** ** UnitConverter *)

Lemma Math_round_le (x y : Q) : (x <= y)%Q → (Math_round x <= Math_round y)%Q.
Proof.
  intros H. unfold Math_round. rewrite <- Zle_Qle.
  apply Qfloor_resp_le. lra.
Qed.

Lemma Math_round_near (x : Q) :
  (Math_round x - (1 # 2) <= x)%Q ∧ (x < Math_round x + (1 # 2))%Q.
Proof.
  unfold Math_round.
  pose proof (Qfloor_le (x + 0.5)) as Hle.
  pose proof (Qlt_floor (x + 0.5)) as Hlt.
  rewrite inject_Z_plus in Hlt. change (inject_Z 1) with 1%Q in Hlt.
  split; lra.
Qed.

(** The constant [mmToPx] of the converter, and its binary64 value. *)
Local Abbreviation mmToPx := (fl (96 / fl 25.4)).

Lemma mmToPx_value : (mmToPx == 531921215831161 # 140737488355328)%Q.
Proof. by vm_compute. Qed.

Lemma convertSize_to_mm v :
  convertSize v px mm = Math_round (fl (v / mmToPx)).
Proof. reflexivity. Qed.

Lemma convertSize_to_px v :
  convertSize v mm px = Math_round (fl (v * mmToPx)).
Proof. reflexivity. Qed.

(** The rounding of the quotient shows: 240 px are 63.5 mm exactly, which
    [Math.round] would take to 64, but the binary64 quotient is the number
    just below 63.5. *)
Lemma convertSize_240_px :
  convertSize 240 px mm = 63%Q ∧ Math_round (240 * 25.4 / 96) = 64%Q.
Proof. split; by vm_compute. Qed.

Lemma Qabs_inject_Z (z : Z) : Qabs (inject_Z z) = inject_Z (Z.abs z).
Proof. reflexivity. Qed.

Lemma Qabs_inject_Z_lt (a b : Z) (k : Z) :
  (Qabs (inject_Z a - inject_Z b) < inject_Z (k + 1))%Q →
  (Qabs (inject_Z a - inject_Z b) <= inject_Z k)%Q.
Proof.
  unfold Qminus. rewrite <- inject_Z_opp, <- inject_Z_plus.
  rewrite Qabs_inject_Z. rewrite <- Zlt_Qlt, <- Zle_Qle. lia.
Qed.

(** C6, as the code has it: for every integer [v] of magnitude at most
    10^15, converting [v] from pixels to millimetres and back gives a value
    that differs from [v] by at most 2. *)
Theorem convertSize_roundtrip_within_2 (v : Z) :
  Z.abs v <= 10 ^ 15 →
  (Qabs (convertSize (convertSize (inject_Z v) px mm) mm px - inject_Z v)
   <= 2)%Q.
Proof.
  intros Hv.
  rewrite convertSize_to_mm, convertSize_to_px.
  set (x1 := (inject_Z v / mmToPx)%Q).
  assert (x1 * mmToPx == inject_Z v)%Q as Hx1.
  { unfold x1. field. rewrite mmToPx_value. lra. }
  assert (Qabs (inject_Z v) <= inject_Z (10 ^ 15))%Q as Hq.
  { rewrite Qabs_inject_Z. by rewrite <- Zle_Qle. }
  apply Qabs_Qle_condition in Hq as [Hq1 Hq2].
  rewrite mmToPx_value in Hx1.
  change (inject_Z (10 ^ 15)) with (1000000000000000 # 1)%Q in Hq1, Hq2.
  assert (Qabs x1 < pow2 49)%Q as Hb1.
  { apply Qabs_Qlt_condition. change (pow2 49) with (562949953421312 # 1)%Q.
    split; lra. }
  pose proof (fl_error_below x1 49 Hb1 ltac:(lia)) as He1.
  change (pow2 (49 - 54)) with (1 # 32)%Q in He1.
  apply Qabs_Qlt_condition in Hb1 as [Hb1 Hb1'].
  change (pow2 49) with (562949953421312 # 1)%Q in Hb1, Hb1'.
  apply Qabs_Qle_condition in He1 as [He1 He1'].
  destruct (Math_round_near (fl x1)) as [Hm1 Hm2].
  unfold Math_round in *.
  set (M := Qfloor (fl x1 + 0.5)) in *. clearbody M.
  set (y1 := fl x1) in *. clearbody y1.
  set (x2 := (inject_Z M * mmToPx)%Q).
  assert (x2 == inject_Z M * (531921215831161 # 140737488355328))%Q as Hx2.
  { unfold x2. by rewrite mmToPx_value. }
  assert (Qabs x2 < pow2 51)%Q as Hb2.
  { apply Qabs_Qlt_condition. change (pow2 51) with (2251799813685248 # 1)%Q.
    split; lra. }
  pose proof (fl_error_below x2 51 Hb2 ltac:(lia)) as He2.
  change (pow2 (51 - 54)) with (1 # 8)%Q in He2.
  apply Qabs_Qle_condition in He2 as [He2 He2'].
  destruct (Math_round_near (fl x2)) as [Hp1 Hp2].
  unfold Math_round in *.
  set (P := Qfloor (fl x2 + 0.5)) in *. clearbody P.
  set (y2 := fl x2) in *. clearbody y2. clearbody x2.
  clearbody x1.
  change (2%Q) with (inject_Z 2). apply Qabs_inject_Z_lt.
  change (inject_Z (2 + 1)) with 3%Q.
  apply Qabs_Qlt_condition. split; lra.
Qed.

Lemma convertSize_roundtrip_within_2_witness :
  (Qabs (convertSize (convertSize (inject_Z 100) px mm) mm px - inject_Z 100)
   <= 2)%Q.
Proof. apply (convertSize_roundtrip_within_2 100). by vm_compute. Defined.

(** C6 as stated fails at 2 pixels: 2 px is 1 mm (0.53 rounded), and 1 mm
    is 4 px (3.78 rounded). *)
Lemma convertSize_roundtrip_counterexample :
  convertSize 2 px mm = 1%Q ∧ convertSize 1 mm px = 4%Q
  ∧ ¬ (Qabs (convertSize (convertSize (inject_Z 2) px mm) mm px - inject_Z 2)
       <= 1)%Q.
Proof.
  split; [by vm_compute |]. split; [by vm_compute |].
  vm_compute. intros H. by apply H.
Qed.

(** C8: the A4 preset is 210 x 297 in millimetres, and in pixels 794 x 1123,
    the integers nearest to [210 * 96 / 25.4] and [297 * 96 / 25.4]. *)
Theorem getSizePresetDimensions_A4 :
  getSizePresetDimensions A4 mm = {| width := 210; height := 297 |}
  ∧ getSizePresetDimensions A4 px = {| width := 794; height := 1123 |}
  ∧ (Qabs (794 - 210 * 96 / 25.4) <= 1 # 2)%Q
  ∧ (Qabs (1123 - 297 * 96 / 25.4) <= 1 # 2)%Q.
Proof.
  split; [reflexivity |].
  split; [by vm_compute |].
  split; by vm_compute.
Qed.

(** C10: the Custom preset is 600 x 800 whatever the unit asked for, where
    the A4 and Letter presets give different numbers for the two units. *)
Theorem getSizePresetDimensions_Custom (u : SizeUnit) :
  getSizePresetDimensions Custom u = {| width := 600; height := 800 |}
  ∧ getSizePresetDimensions Custom px = getSizePresetDimensions Custom mm
  ∧ getSizePresetDimensions A4 px ≠ getSizePresetDimensions A4 mm
  ∧ getSizePresetDimensions Letter px ≠ getSizePresetDimensions Letter mm.
Proof.
  split; [by destruct u |].
  split; [reflexivity |].
  split; intros H; vm_compute in H; discriminate H.
Qed.


(** ** ExportPipeline *)

Lemma div_mod_4 (n q r : nat) :
  (n = 4 * q + r)%nat → (r < 4)%nat → (n / 4 = q ∧ n mod 4 = r)%nat.
Proof.
  intros -> Hr. split; symmetry.
  - by apply (Nat.div_unique _ 4 q r).
  - by apply (Nat.mod_unique _ 4 q r).
Qed.

Section ExportFacts.

Context {Element Image : Type}.
Variable html2canvas : Element -> Canvas Image.
Variables pageWidth pageHeight : Q.

Local Abbreviation place := (place_card html2canvas pageWidth pageHeight).
Local Abbreviation loop := (export_loop html2canvas pageWidth pageHeight).
Local Abbreviation cell := (grid_cell html2canvas pageWidth pageHeight).
Local Abbreviation inv := (grid_inv html2canvas pageWidth pageHeight).

Lemma export_loop_snoc layout i l e pdf :
  loop layout i (l ++ [e]) pdf
    = place layout (i + length l)%nat e (loop layout i l pdf).
Proof.
  revert i pdf. induction l as [|x l IH]; intros i pdf; simpl.
  - by rewrite Nat.add_0_r.
  - rewrite IH.
    by replace (S i + length l)%nat with (i + S (length l))%nat by lia.
Qed.

Lemma addImage_new_page (img : Placed Image) pdf :
  addImage img (addPage pdf) = pdf ++ [[img]].
Proof.
  unfold addImage, addPage. rewrite length_app. simpl.
  rewrite alter_app_r_alt by lia.
  by replace (length pdf + 1 - 1 - length pdf)%nat with 0%nat by lia.
Qed.

Lemma addImage_last_page (img : Placed Image) pdf page :
  addImage img (pdf ++ [page]) = pdf ++ [page ++ [img]].
Proof.
  unfold addImage. rewrite length_app. simpl.
  rewrite alter_app_r_alt by lia.
  by replace (length pdf + 1 - 1 - length pdf)%nat with 0%nat by lia.
Qed.

Lemma place_card_grid i e pdf :
  place multiple_per_page i e pdf =
    if ((i mod 4 =? 0) && (0 <? i))%nat
    then addImage (cell i e) (addPage pdf)
    else addImage (cell i e) pdf.
Proof. unfold place_card, grid_cell. by destruct (_ && _). Qed.

Lemma grid_inv_export l :
  inv l (exportCardsToPDF html2canvas pageWidth pageHeight l
                multiple_per_page).
Proof.
  unfold exportCardsToPDF.
  induction l as [|e l IH] using rev_ind.
  - exists [], []. simpl. repeat split; try done; try lia; try (by left).
  - rewrite export_loop_snoc, place_card_grid, Nat.add_0_l.
    destruct IH as (full & last & -> & Hfull & Hlen & Hlast & Hne & Hcells).
    assert (∀ i e', l !! i = Some e' → (i < length l)%nat) as Hlt
      by (intros; by eapply lookup_lt_Some).
    destruct ((length l mod 4 =? 0) && (0 <? length l))%nat eqn:Hnew.
    + apply andb_prop in Hnew as [Hm%Nat.eqb_eq Hpos%Nat.ltb_lt].
      rewrite addImage_new_page.
      assert (length last = 4%nat) as Hl4.
      { destruct Hne as [-> | Hne]; [simpl in Hpos; lia |].
        destruct (decide (length last = 4%nat)); [done |].
        destruct (div_mod_4 (length l) (length full) (length last)); lia. }
      destruct (div_mod_4 (length l) (length full + 1) 0) as [Hq _];
        [lia | lia |].
      exists (full ++ [last]), [cell (length l) e]. repeat split.
      * apply Forall_app. split; [done | by repeat constructor].
      * rewrite !length_app. simpl. lia.
      * simpl; lia.
      * right. simpl; lia.
      * intros i e' Hi. apply lookup_app_Some in Hi as [Hi | [Hge Hi]].
        -- destruct (Hcells i e' Hi) as (page & Hp & Hc).
           exists page. split; [| done]. by apply lookup_app_l_Some.
        -- destruct (i - length l)%nat as [|?] eqn:Hd; [| done].
           simpl in Hi. injection Hi as <-.
           assert (i = length l) as -> by lia.
           exists [cell (length l) e]. split.
           ++ rewrite Hq.
              rewrite lookup_app_r by (rewrite length_app; simpl; lia).
              rewrite length_app. simpl. by rewrite Nat.sub_diag.
           ++ by rewrite Hm.
    + apply andb_false_iff in Hnew.
      rewrite addImage_last_page.
      assert (length last < 4)%nat as Hl4.
      { destruct Hnew as [Hm%Nat.eqb_neq | Hz%Nat.ltb_ge]; [| lia].
        destruct (decide (length last = 4%nat)) as [E |]; [| lia].
        destruct (div_mod_4 (length l) (length full + 1) 0); lia. }
      destruct (div_mod_4 (length l) (length full) (length last))
        as [Hq Hr]; [lia | lia |].
      exists full, (last ++ [cell (length l) e]). repeat split.
      * done.
      * rewrite !length_app. simpl. lia.
      * rewrite length_app. simpl. lia.
      * right. rewrite length_app. simpl. lia.
      * intros i e' Hi. apply lookup_app_Some in Hi as [Hi | [Hge Hi]].
        -- destruct (Hcells i e' Hi) as (page & Hp & Hc).
           apply lookup_app_Some in Hp as [Hp | [Hge Hp]].
           ++ exists page. split; [by apply lookup_app_l_Some | done].
           ++ destruct (i / 4 - length full)%nat as [|?] eqn:Hd; [| done].
              simpl in Hp. injection Hp as <-.
              exists (last ++ [cell (length l) e]). split.
              ** rewrite lookup_app_r by done. by rewrite Hd.
              ** by apply lookup_app_l_Some.
        -- destruct (i - length l)%nat as [|?] eqn:Hd; [| done].
           simpl in Hi. injection Hi as <-.
           assert (i = length l) as -> by lia.
           exists (last ++ [cell (length l) e]). split.
           ++ rewrite Hq. by rewrite lookup_app_r, Nat.sub_diag.
           ++ rewrite Hr. by rewrite lookup_app_r, Nat.sub_diag.
Qed.

Lemma grid_inv_pages l pdf :
  inv l pdf → l ≠ [] → length pdf = ((length l + 3) / 4)%nat.
Proof.
  intros (full & last & -> & Hfull & Hlen & Hlast & [-> | Hpos] & _) Hne;
    [done |].
  rewrite length_app. cbn [length].
  destruct (div_mod_4 (length l + 3) (length full + 1) (length last - 1));
    lia.
Qed.

End ExportFacts.

(** C7: when rendered cards are exported with the grid layout (at least one:
    [Home.tsx] reports an error instead of exporting none), card [i] (from
    0, in the order given) is on page [i / 4] (from 0) and is the image
    number [i mod 4] placed there, in the cell of column [(i mod 4) mod 2]
    and row [(i mod 4) / 2]; the document has [ceil (N / 4)] pages, none
    with more than four cards.  Five cards give two pages, the first with
    cards 1 to 4, the second with card 5. *)
Theorem grid_layout_pages {Element Image : Type}
    (html2canvas : Element -> Canvas Image) (pageWidth pageHeight : Q)
    (cardElements : list Element) :
  cardElements ≠ [] →
  let pdf :=
    exportCardsToPDF html2canvas pageWidth pageHeight cardElements
      multiple_per_page in
  let cell := grid_cell html2canvas pageWidth pageHeight in
  length pdf = ((length cardElements + 3) / 4)%nat
  ∧ (∀ i element, cardElements !! i = Some element →
       ∃ page, pdf !! (i / 4)%nat = Some page
               ∧ page !! (i mod 4)%nat = Some (cell i element))
  ∧ Forall (λ page, (length page ≤ 4)%nat) pdf
  ∧ (∀ e1 e2 e3 e4 e5,
       exportCardsToPDF html2canvas pageWidth pageHeight [e1; e2; e3; e4; e5]
         multiple_per_page
       = [[cell 0%nat e1; cell 1%nat e2; cell 2%nat e3; cell 3%nat e4];
          [cell 4%nat e5]]).
Proof.
  intros Hne pdf cell.
  pose proof (grid_inv_export html2canvas pageWidth pageHeight cardElements)
    as Hinv.
  fold pdf in Hinv. split; [| split; [| split]].
  - by apply (grid_inv_pages html2canvas pageWidth pageHeight).
  - destruct Hinv as (full & last & _ & _ & _ & _ & _ & Hcells).
    exact Hcells.
  - destruct Hinv as (full & last & -> & Hfull & _ & Hlast & _).
    apply Forall_app. split.
    + eapply Forall_impl; [exact Hfull |]. simpl. lia.
    + constructor; [exact Hlast | constructor].
  - intros e1 e2 e3 e4 e5. reflexivity.
Qed.

Lemma grid_layout_pages_witness :
  length (exportCardsToPDF sample_canvas 210 297 [1; 2; 3; 4; 5]%nat
            multiple_per_page) = 2%nat
  ∧ List.map (List.map imageData)
      (exportCardsToPDF sample_canvas 210 297 [1; 2; 3; 4; 5]%nat
         multiple_per_page)
    = [[1; 2; 3; 4]; [5]]%nat.
Proof.
  pose proof (grid_layout_pages sample_canvas 210 297 [1; 2; 3; 4; 5]%nat)
    as H.
  destruct H as (Hpages & _ & _ & Hfive); [discriminate |].
  split; [exact Hpages |].
  rewrite Hfive. reflexivity.
Defined.

(** * Further properties: the rest of the two files and their callers *)

From Stdlib Require Import DecimalPos DecimalZ.

(** ** WordProcessor, further *)

Lemma split_from_Forall (P : N → Prop) b s :
  Forall P s → Forall (Forall P) (split_from b s).
Proof.
  intros H. revert b. induction H as [|c s Hc _ IH]; intros b; simpl.
  - repeat constructor.
  - destruct (is_separator c).
    + destruct b; [apply IH |]. constructor; [constructor | apply IH].
    + specialize (IH false). destruct (split_from false s) as [|p ps].
      * repeat constructor. done.
      * inversion IH; subst. constructor; [by constructor | done].
Qed.

Lemma trim_blank s : blank s → trim s = [].
Proof.
  intros H. unfold trim.
  assert (trimStart s = []) as ->; [| done].
  induction H as [|c s Hc _ IH]; [done |]. simpl. by rewrite Hc.
Qed.

Lemma candidates_of_pieces (pieces : list jsstring) :
  Forall blank pieces →
  filter (λ word, (0 < length word)%nat) (trim <$> pieces) = [].
Proof.
  induction 1 as [|p ps Hp _ IH]; [done |].
  rewrite fmap_cons, (trim_blank p Hp).
  rewrite filter_cons_False by (simpl; lia). exact IH.
Qed.

(** X25: an input made of nothing but commas, newlines and white space
    holds no word: [processWords] returns the empty list. *)
Theorem processWords_blank (toLowerCase : jsstring -> jsstring)
    (input : jsstring) :
  Forall (λ c, is_separator c = true ∨ isWhiteSpace c = true) input →
  processWords toLowerCase input = [].
Proof.
  intros H. rewrite processWords_pipeline. unfold candidates, split.
  rewrite candidates_of_pieces; [done |].
  pose proof (split_from_Forall _ false input H) as Hp.
  pose proof (split_from_separator_free false input) as Hs.
  rewrite Forall_forall in Hp, Hs. apply Forall_forall. intros p Hin.
  specialize (Hp p Hin). specialize (Hs p Hin).
  unfold blank, separator_free in *.
  rewrite Forall_forall in Hp, Hs. apply Forall_forall. intros c Hc.
  destruct (Hp c Hc) as [E | E]; [| done]. by rewrite (Hs c Hc) in E.
Qed.

Lemma processWords_blank_witness :
  processWords ascii_toLowerCase (js " , ,," ++ [10%N; 9%N] ++ js ", ") = [].
Proof.
  apply (processWords_blank ascii_toLowerCase).
  apply (bool_decide_unpack _). by vm_compute.
Defined.

(** X26: a list of words that are non-empty, trimmed, free of commas and
    newlines and pairwise distinct up to case comes back unchanged when it
    is joined with commas and given to [processWords]. *)
Theorem processWords_join (toLowerCase : jsstring -> jsstring)
    (words : list jsstring) :
  Forall (λ w, separator_free w ∧ w ≠ [] ∧ trimmed w) words →
  distinct_words toLowerCase words →
  processWords toLowerCase (join comma words) = words.
Proof.
  intros Hw Hd. rewrite processWords_pipeline, candidates_join by done.
  apply dedup_loop_fixed; [done |]. intros w _. apply not_elem_of_empty.
Qed.

Lemma processWords_join_witness :
  processWords ascii_toLowerCase (join comma sample_pool) = sample_pool.
Proof.
  apply (processWords_join ascii_toLowerCase sample_pool).
  - apply Forall_forall. intros w Hw. unfold sample_pool in Hw.
    rewrite !fmap_cons, !elem_of_cons in Hw.
    destruct Hw as [-> | [-> | [-> | [-> | [-> | Hw]]]]];
      try (by apply elem_of_nil in Hw);
      (split; [apply (bool_decide_unpack _); by vm_compute |]);
      (split; [discriminate |]);
      (split; intros c [= <-]; reflexivity).
  - unfold distinct_words. apply (bool_decide_unpack _). by vm_compute.
Defined.

Local Abbreviation keep pieces :=
  (filter (λ word : jsstring, (0 < length word)%nat) (trim <$> pieces)).

Lemma keep_app (ps qs : list jsstring) : keep (ps ++ qs) = keep ps ++ keep qs.
Proof. by rewrite fmap_app, filter_app. Qed.

Lemma keep_empty_piece (ps : list jsstring) : keep ([] :: ps) = keep ps.
Proof. done. Qed.

(** A separator after [x]: the pieces of [x], then those of what follows;
    a run that [x] ends with goes on, and leaves no empty piece. *)
Lemma split_from_app_sep b (x y : jsstring) (c : N) :
  is_separator c = true →
  split_from b (x ++ c :: y) = split_from b x ++ split_from true y
  ∨ ∃ qs, split_from b x = qs ++ [[]] ∧ (b = false → qs ≠ [])
          ∧ split_from b (x ++ c :: y) = qs ++ split_from true y.
Proof.
  intros Hc. revert b. induction x as [|d x IH]; intros b.
  - simpl. rewrite Hc. destruct b.
    + right. by exists [].
    + by left.
  - cbn [app split_from]. destruct (is_separator d).
    + destruct (IH true) as [E | (qs & E1 & _ & E2)].
      * left. rewrite E. by destruct b.
      * right. rewrite E1, E2. destruct b.
        -- by exists qs.
        -- by exists ([] :: qs).
    + destruct (IH false) as [E | (qs & E1 & Hqs & E2)].
      * left. rewrite E.
        pose proof (split_from_nonempty false x).
        by destruct (split_from false x).
      * right. rewrite E1, E2.
        destruct qs as [|q qs]; [by specialize (Hqs eq_refl) |].
        by exists ((d :: q) :: qs).
Qed.

Lemma keep_split_from_run (y : jsstring) :
  keep (split_from true y) = keep (split_from false y).
Proof.
  destruct y as [|c y]; [done |]. simpl. by destruct (is_separator c).
Qed.

Lemma candidates_app_sep (x y : jsstring) (c : N) :
  is_separator c = true →
  candidates (x ++ c :: y) = candidates x ++ candidates y.
Proof.
  intros Hc. unfold candidates, split.
  rewrite <- (keep_split_from_run y).
  destruct (split_from_app_sep false x y c Hc) as [-> | (qs & E1 & _ & ->)].
  - apply keep_app.
  - rewrite E1, !keep_app. by rewrite app_nil_r.
Qed.

Section DedupAppend.

Variable toLowerCase : jsstring -> jsstring.

Lemma dedup_loop_app seen (l1 l2 : list jsstring) :
  ∃ seen',
    dedup_loop toLowerCase seen [] (l1 ++ l2)
    = dedup_loop toLowerCase seen [] l1
      ++ dedup_loop toLowerCase seen' [] l2
    ∧ ∀ k, k ∈ seen' ↔ k ∈ seen ∨ k ∈ toLowerCase <$> l1.
Proof.
  revert seen. induction l1 as [|w l1 IH]; intros seen.
  - exists seen. split; [done |]. intros k. rewrite fmap_nil, elem_of_nil.
    tauto.
  - cbn [app]. rewrite !dedup_loop_cons. case_decide as Hw.
    + destruct (IH seen) as (seen' & -> & Hseen). exists seen'.
      split; [done |]. intros k. rewrite Hseen, fmap_cons, elem_of_cons.
      split; [tauto |]. intros [? | [-> | ?]]; tauto.
    + destruct (IH ({[toLowerCase w]} ∪ seen)) as (seen' & -> & Hseen).
      exists seen'. split; [done |]. intros k.
      rewrite Hseen, fmap_cons, elem_of_cons, elem_of_union,
        elem_of_singleton. tauto.
Qed.

End DedupAppend.

(** X27: text added after a comma or a newline never changes the words
    already found: the words of [x], a separator and [y] are the words of
    [x], in their order, followed by those candidates of [y] that are new
    up to case. *)
Theorem processWords_append (toLowerCase : jsstring -> jsstring)
    (x y : jsstring) (c : N) :
  is_separator c = true →
  ∃ more,
    processWords toLowerCase (x ++ c :: y)
    = processWords toLowerCase x ++ more
    ∧ more `sublist_of` candidates y
    ∧ (∀ w, w ∈ more →
         toLowerCase w ∉ toLowerCase <$> processWords toLowerCase x)
    ∧ (∀ w, w ∈ candidates y →
         toLowerCase w ∈ toLowerCase <$> processWords toLowerCase x
         ∨ toLowerCase w ∈ toLowerCase <$> more).
Proof.
  intros Hc. rewrite !processWords_pipeline, candidates_app_sep by done.
  destruct (dedup_loop_app toLowerCase ∅ (candidates x) (candidates y))
    as (seen' & -> & Hseen).
  assert (∀ k, k ∈ seen'
               ↔ k ∈ toLowerCase <$> dedup_loop toLowerCase ∅ []
                                       (candidates x)) as Hkeys.
  { intros k. rewrite Hseen. split.
    - intros [H | H]; [by apply elem_of_empty in H |].
      apply list_elem_of_fmap in H as (w & -> & Hw).
      destruct (dedup_loop_complete toLowerCase ∅ _ w Hw) as [H | H];
        [by apply elem_of_empty in H | done].
    - intros H. right.
      apply list_elem_of_fmap in H as (w & -> & Hw).
      apply list_elem_of_fmap. exists w. split; [done |].
      by eapply sublist_subseteq; [apply dedup_loop_sublist |]. }
  eexists. split; [reflexivity |]. split; [apply dedup_loop_sublist |].
  split.
  - intros w Hw. rewrite <- Hkeys. by eapply dedup_loop_fresh.
  - intros w Hw. rewrite <- Hkeys. by apply dedup_loop_complete.
Qed.

Lemma processWords_append_witness :
  ∃ more,
    processWords ascii_toLowerCase
      (js "Apple, Banana" ++ 10%N :: js "apple,Kiwi")
    = processWords ascii_toLowerCase (js "Apple, Banana") ++ more
    ∧ more `sublist_of` candidates (js "apple,Kiwi")
    ∧ (∀ w, w ∈ more →
         ascii_toLowerCase w
         ∉ ascii_toLowerCase <$> processWords ascii_toLowerCase
                                   (js "Apple, Banana"))
    ∧ (∀ w, w ∈ candidates (js "apple,Kiwi") →
         ascii_toLowerCase w
         ∈ ascii_toLowerCase <$> processWords ascii_toLowerCase
                                   (js "Apple, Banana")
         ∨ ascii_toLowerCase w ∈ ascii_toLowerCase <$> more).
Proof.
  apply (processWords_append ascii_toLowerCase (js "Apple, Banana")
           (js "apple,Kiwi") 10%N).
  reflexivity.
Defined.

(** ** Names built from numbers *)

Lemma js_inj (s t : string) : js s = js t → s = t.
Proof.
  unfold js. intros H.
  apply (f_equal (fmap (M := list) ascii_of_N)) in H.
  rewrite <- !list_fmap_compose in H.
  assert (∀ l : list ascii, (ascii_of_N ∘ N_of_ascii) <$> l = l) as Hid.
  { intros l. rewrite <- (list_fmap_id l) at 2. apply list_fmap_ext.
    intros _ a _. apply ascii_N_embedding. }
  rewrite !Hid in H.
  rewrite <- (string_of_list_ascii_of_string s),
          <- (string_of_list_ascii_of_string t).
  by rewrite H.
Qed.

Lemma to_int_proper (n : Z) : Z.to_int n ≠ Decimal.Pos Decimal.Nil
                              ∧ Z.to_int n ≠ Decimal.Neg Decimal.Nil.
Proof.
  destruct n as [|p|p]; simpl; split; try discriminate;
    intros [= H]; by apply DecimalPos.Unsigned.to_uint_nonnil in H.
Qed.

Lemma ToString_inj (n m : Z) : ToString n = ToString m → n = m.
Proof.
  unfold ToString. intros H%js_inj.
  destruct (to_int_proper n) as [Hn1 Hn2], (to_int_proper m) as [Hm1 Hm2].
  pose proof (NilZero.isi _ Hn1 Hn2) as En.
  pose proof (NilZero.isi _ Hm1 Hm2) as Em.
  rewrite H, Em in En. injection En as En.
  rewrite <- (DecimalZ.of_to n), <- (DecimalZ.of_to m). by rewrite En.
Qed.

Lemma cardId_of_inj (i j : Z) : cardId_of i = cardId_of j → i = j.
Proof.
  unfold cardId_of. intros H%app_inv_head%ToString_inj. lia.
Qed.

Lemma png_name_inj (i j : nat) : png_name i = png_name j → i = j.
Proof.
  unfold png_name. intros H%app_inv_head%app_inv_tail%ToString_inj. lia.
Qed.

(** ** The generator: what holds whatever the random source gives *)

Lemma shuffle_loop_returns Math_random {T} (i : nat) (l : list T) (k : nat) :
  ∃ l', shuffle_loop Math_random i l k = (inr l', (k + i)%nat)
        ∧ length l' = length l.
Proof.
  revert l k. induction i as [|i IH]; intros l k.
  - exists l. simpl. unfold ret. by rewrite Nat.add_0_r.
  - cbn [shuffle_loop]. unfold bind, random.
    destruct (IH (swap l (S i) (floor_scaled (Math_random k) (S i + 1)))
                (S k)) as (l' & Hl' & Hlen).
    exists l'. split.
    + rewrite Hl'. f_equal. lia.
    + by rewrite Hlen, swap_length.
Qed.

Lemma generateSingleCard_returns Math_random (pool : list jsstring) (g : Z)
    (cardId : jsstring) (k : nat) :
  g * g <= Z.of_nat (length pool) →
  ∃ card,
    generateSingleCard Math_random pool g cardId k =
      (inr card, (k + (length pool - 1))%nat)
    ∧ card_id card = cardId ∧ card_gridSize card = g
    ∧ length (card_words card) = Z.to_nat (g * g).
Proof.
  intros Hlen. unfold generateSingleCard, shuffleArray.
  destruct (Z.ltb_spec (Z.of_nat (length pool)) (g * g)); [lia |].
  destruct (shuffle_loop_returns Math_random (length pool - 1) pool k)
    as (l' & Hl' & Hlen').
  eexists. unfold bind. rewrite Hl'. split; [reflexivity |].
  cbn. repeat split. rewrite length_take. lia.
Qed.

(** The cards of a batch, as far as the random source does not matter:
    their number, ids, grid size and length, and the calls made. *)
Lemma independent_cards_returns Math_random (pool : list jsstring) (g : Z)
    (n : nat) (i : Z) (k : nat) :
  g * g <= Z.of_nat (length pool) →
  ∃ cards,
    independent_cards Math_random pool g n i k =
      (inr cards, (k + n * (length pool - 1))%nat)
    ∧ length cards = n
    ∧ ∀ j card, cards !! j = Some card →
        card_id card = cardId_of (i + Z.of_nat j)
        ∧ card_gridSize card = g
        ∧ length (card_words card) = Z.to_nat (g * g).
Proof.
  intros Hlen. revert i k. induction n as [|n IH]; intros i k.
  - exists []. simpl. unfold ret. split; [f_equal; lia |]. split; [done |].
    intros j card Hj. by rewrite lookup_nil in Hj.
  - cbn [independent_cards]. unfold bind.
    destruct (generateSingleCard_returns Math_random pool g (cardId_of i) k
                Hlen) as (card & -> & Hid & Hg & Hw).
    destruct (IH (i + 1) (k + (length pool - 1))%nat)
      as (cards & -> & Hn & Hcards).
    exists (card :: cards). unfold ret. split; [f_equal; lia |].
    split; [simpl; lia |].
    intros [|j] c Hc; simpl in Hc.
    + injection Hc as <-. by rewrite Z.add_0_r.
    + destruct (Hcards j c Hc) as (Hcid & ? & ?).
      repeat split; try done. rewrite Hcid. f_equal. lia.
Qed.

Lemma generateBingoCards_independent Math_random (pool : list jsstring)
    (config : CardConfig) (k : nat) :
  gridSize config * gridSize config <= Z.of_nat (length pool) →
  generateBingoCards Math_random pool config k =
    independent_cards Math_random pool (gridSize config)
      (Z.to_nat (numCards config)) 0 k.
Proof.
  intros Hlen. unfold generateBingoCards.
  destruct (Z.ltb_spec (Z.of_nat (length pool))
              (gridSize config * gridSize config)); [lia |].
  rewrite cards_loop_independent. unfold bind, ret.
  by destruct (independent_cards _ _ _ _ _ _) as [[e | cards] k'].
Qed.

Section BatchFacts.

Variable Math_random : nat -> Q.
Hypothesis Math_random_range : ∀ k, (0 <= Math_random k < 1)%Q.

Lemma independent_cards_words (toLowerCase : jsstring -> jsstring)
    (pool : list jsstring) (g : Z) (n : nat) (i : Z) (k : nat)
    (cards : list BingoCard) (k' : nat) :
  distinct_words toLowerCase pool →
  independent_cards Math_random pool g n i k = (inr cards, k') →
  Forall (λ card, distinct_words toLowerCase (card_words card)
                  ∧ ∀ w, w ∈ card_words card → w ∈ pool) cards.
Proof.
  intros Hpool. revert i k cards k'.
  induction n as [|n IH]; intros i k cards k'.
  - simpl. unfold ret. intros [= <- <-]. constructor.
  - cbn [independent_cards]. unfold bind.
    destruct (Z.ltb_spec (Z.of_nat (length pool)) (g * g)) as [Hlt | Hge].
    { rewrite (generateSingleCard_insufficient _ _ _ _ _ Hlt). done. }
    destruct (generateSingleCard_ok Math_random Math_random_range pool g
                (cardId_of i) k Hge) as (shuffled & Hperm & ->).
    destruct (independent_cards Math_random pool g n (i + 1) _)
      as [[e | rest] k''] eqn:Hrest; [done |].
    unfold ret. intros [= <- <-]. constructor; [| by eapply IH].
    cbn [card_words]. split.
    + unfold distinct_words in *.
      apply (sublist_NoDup _ (toLowerCase <$> shuffled)).
      * by rewrite Hperm.
      * apply fmap_sublist, sublist_take.
    + intros w Hw. rewrite <- Hperm.
      by apply (subseteq_take (Z.to_nat (g * g))).
Qed.

End BatchFacts.

(** X1: with a random source that stays in [0, 1), [shuffleArray] returns a
    permutation of its argument (nothing lost, nothing repeated, nothing
    new) after exactly [length - 1] calls of the random source (none for an
    empty array). *)
Theorem shuffleArray_permutes (Math_random : nat -> Q) {T} (array : list T)
    (k : nat) :
  (∀ n, (0 <= Math_random n < 1)%Q) →
  ∃ shuffled,
    shuffleArray Math_random array k
      = (inr shuffled, (k + (length array - 1))%nat)
    ∧ shuffled ≡ₚ array.
Proof.
  intros Hrange. by apply shuffleArray_Permutation.
Qed.

Lemma shuffleArray_permutes_witness :
  ∃ shuffled,
    shuffleArray sample_random [1; 2; 3; 4; 5]%nat 0%nat
      = (inr shuffled, (0 + (5 - 1))%nat)
    ∧ shuffled ≡ₚ [1; 2; 3; 4; 5]%nat.
Proof.
  apply (shuffleArray_permutes sample_random [1; 2; 3; 4; 5]%nat 0%nat).
  exact sample_random_range.
Defined.

(** X2: with a pool of at least [g * g] case-insensitively distinct words
    and a random source in [0, 1), [generateBingoCards] returns exactly
    [numCards] cards (none when [numCards <= 0]); the card at index [j] has
    the id [card-(j+1)], the grid size asked for and [g * g] words, pairwise
    distinct case-insensitively and all taken from the pool; each card costs
    [|pool| - 1] calls of the random source. *)
Theorem generateBingoCards_cards (toLowerCase : jsstring -> jsstring)
    (Math_random : nat -> Q) (pool : list jsstring) (g N : Z) (b : bool)
    (k : nat) :
  (∀ n, (0 <= Math_random n < 1)%Q) →
  distinct_words toLowerCase pool →
  g * g <= Z.of_nat (length pool) →
  ∃ cards,
    generateBingoCards Math_random pool
      {| gridSize := g; numCards := N; allowRepetition := b |} k
      = (inr cards, (k + Z.to_nat N * (length pool - 1))%nat)
    ∧ length cards = Z.to_nat N
    ∧ ∀ j card, cards !! j = Some card →
        card_id card = js "card-" ++ ToString (Z.of_nat j + 1)
        ∧ card_gridSize card = g
        ∧ length (card_words card) = Z.to_nat (g * g)
        ∧ distinct_words toLowerCase (card_words card)
        ∧ ∀ w, w ∈ card_words card → w ∈ pool.
Proof.
  intros Hrange Hpool Hlen.
  rewrite generateBingoCards_independent by done. cbn [gridSize numCards].
  destruct (independent_cards_returns Math_random pool g (Z.to_nat N) 0 k
              Hlen) as (cards & Hcards & Hn & Hshape).
  exists cards. split; [done |]. split; [done |].
  pose proof (independent_cards_words Math_random Hrange toLowerCase pool g
                _ _ _ _ _ Hpool Hcards) as Hwords.
  rewrite Forall_forall in Hwords.
  intros j card Hj. destruct (Hshape j card Hj) as (Hid & Hg & Hw).
  destruct (Hwords card) as [Hd Hin]; [by eapply list_elem_of_lookup_2 |].
  by rewrite Hid.
Qed.

Lemma generateBingoCards_cards_witness :
  ∃ cards,
    generateBingoCards sample_random (take 9 pool_of_20)
      {| gridSize := 3; numCards := 2; allowRepetition := false |} 0%nat
      = (inr cards, (0 + Z.to_nat 2 * (length (take 9 pool_of_20) - 1))%nat)
    ∧ length cards = Z.to_nat 2
    ∧ ∀ j card, cards !! j = Some card →
        card_id card = js "card-" ++ ToString (Z.of_nat j + 1)
        ∧ card_gridSize card = 3
        ∧ length (card_words card) = Z.to_nat (3 * 3)
        ∧ distinct_words ascii_toLowerCase (card_words card)
        ∧ ∀ w, w ∈ card_words card → w ∈ take 9 pool_of_20.
Proof.
  apply (generateBingoCards_cards ascii_toLowerCase sample_random
           (take 9 pool_of_20) 3 2 false 0%nat).
  - exact sample_random_range.
  - unfold distinct_words. apply (bool_decide_unpack _). vm_compute. exact I.
  - vm_compute. discriminate.
Defined.

(** X3: the ids of the cards of one batch are pairwise distinct, whatever
    the random source gives. *)
Theorem generateBingoCards_ids_distinct (Math_random : nat -> Q)
    (pool : list jsstring) (g N : Z) (b : bool) (k : nat) :
  g * g <= Z.of_nat (length pool) →
  ∃ cards k',
    generateBingoCards Math_random pool
      {| gridSize := g; numCards := N; allowRepetition := b |} k
      = (inr cards, k')
    ∧ NoDup (card_id <$> cards).
Proof.
  intros Hlen.
  rewrite generateBingoCards_independent by done. cbn [gridSize numCards].
  destruct (independent_cards_returns Math_random pool g (Z.to_nat N) 0 k
              Hlen) as (cards & Hcards & Hn & Hshape).
  eexists cards, _. split; [exact Hcards |].
  apply NoDup_alt. intros i j x Hi Hj.
  apply list_lookup_fmap_Some in Hi as (ci & -> & Hci).
  apply list_lookup_fmap_Some in Hj as (cj & Heq & Hcj).
  destruct (Hshape i ci Hci) as (Hidi & _), (Hshape j cj Hcj) as (Hidj & _).
  rewrite Hidi, Hidj in Heq. apply cardId_of_inj in Heq. lia.
Qed.

Lemma generateBingoCards_ids_distinct_witness :
  ∃ cards k',
    generateBingoCards sample_random sample_pool
      {| gridSize := 2; numCards := 3; allowRepetition := true |} 0%nat
      = (inr cards, k')
    ∧ NoDup (card_id <$> cards).
Proof.
  apply (generateBingoCards_ids_distinct sample_random sample_pool 2 3 true
           0%nat).
  vm_compute. discriminate.
Defined.

(** X4: [isWordCountSufficient] is exactly the condition under which
    [generateBingoCards] returns cards instead of throwing. *)
Theorem isWordCountSufficient_iff_generates (Math_random : nat -> Q)
    (pool : list jsstring) (g N : Z) (b : bool) (k : nat) :
  isWordCountSufficient (Z.of_nat (length pool)) g N = true
  ↔ ∃ cards k',
      generateBingoCards Math_random pool
        {| gridSize := g; numCards := N; allowRepetition := b |} k
        = (inr cards, k').
Proof.
  unfold isWordCountSufficient. rewrite Z.geb_le. split.
  - intros Hlen.
    rewrite generateBingoCards_independent by done. cbn [gridSize numCards].
    destruct (independent_cards_returns Math_random pool g (Z.to_nat N) 0 k
                Hlen) as (cards & Hcards & _).
    by eexists cards, _.
  - intros (cards & k' & H).
    destruct (Z.le_gt_cases (g * g) (Z.of_nat (length pool))) as [| Hlt];
      [done |].
    rewrite generateBingoCards_insufficient in H by (cbn; lia). done.
Qed.

(** X5: for at least one card, having the number of words
    [calculateRequiredWords] displays is enough to pass
    [isWordCountSufficient]. *)
Theorem calculateRequiredWords_sufficient (n g N : Z) :
  1 <= N →
  calculateRequiredWords g N <= n →
  isWordCountSufficient n g N = true.
Proof.
  unfold calculateRequiredWords, isWordCountSufficient.
  intros HN Hn. apply Z.geb_le. nia.
Qed.

Lemma calculateRequiredWords_sufficient_witness :
  isWordCountSufficient 50 5 2 = true.
Proof.
  apply (calculateRequiredWords_sufficient 50 5 2); vm_compute; discriminate.
Defined.

Lemma filter_keeps_all {A} (P : A → Prop) `{!∀ x, Decision (P x)}
    (l : list A) :
  Forall P l → filter P l = l.
Proof.
  induction 1 as [|x l Hx _ IH]; [done |].
  by rewrite filter_cons_True, IH.
Qed.

Lemma filter_other_ids_length {A B} `{EqDecision B} (f : A → B)
    (l : list A) (j : nat) (c : A) :
  NoDup (f <$> l) → l !! j = Some c →
  length (filter (λ x, f x ≠ f c) l) = (length l - 1)%nat.
Proof.
  revert j. induction l as [|x l IH]; intros j Hnd Hj; [done |].
  rewrite fmap_cons in Hnd. apply NoDup_cons in Hnd as [Hx Hnd].
  destruct j as [|j]; simpl in Hj.
  - injection Hj as ->. rewrite filter_cons_False by (intros H; by apply H).
    rewrite filter_keeps_all; [simpl; lia |].
    apply Forall_forall. intros y Hy E.
    apply Hx. rewrite <- E. apply list_elem_of_fmap. by exists y.
  - rewrite filter_cons_True.
    + simpl. rewrite (IH j) by done.
      apply lookup_lt_Some in Hj. lia.
    + intros E. apply Hx. rewrite E. apply list_elem_of_fmap.
      exists c. split; [done |]. by eapply list_elem_of_lookup_2.
Qed.

(** X6: when the pool has fewer than [gridSize * gridSize] words,
    [handleGenerateCards] generates nothing: the cards generated before and
    the current step stay as they were, no call of the random source is
    made, and the error shown is the page's own, which asks for
    [gridSize * gridSize * numCards] words (the message of
    [generateBingoCards] is never shown). *)
Theorem handleGenerateCards_rejects (Math_random : nat -> Q)
    (st : HomeState) (k : nat) :
  let g := gridSize (st_cardConfig st) in
  let N := numCards (st_cardConfig st) in
  Z.of_nat (length (st_words st)) < g * g →
  handleGenerateCards Math_random st k =
    ({| st_words := st_words st;
        st_cardConfig := st_cardConfig st;
        st_generatedCards := st_generatedCards st;
        st_isGenerating := false;
        st_error :=
          js "Need at least " ++ ToString (g * g * N)
          ++ js " unique words, but you have "
          ++ ToString (Z.of_nat (length (st_words st)));
        st_success := [];
        st_currentStep := st_currentStep st |}, k).
Proof.
  intros g N Hlen. unfold handleGenerateCards, try_generate.
  unfold isWordCountSufficient, calculateRequiredWords.
  fold g N. destruct (Z.geb_spec (Z.of_nat (length (st_words st))) (g * g));
    [lia | done].
Qed.

Lemma handleGenerateCards_rejects_witness :
  handleGenerateCards sample_random sample_state 7%nat =
    ({| st_words := st_words sample_state;
        st_cardConfig := st_cardConfig sample_state;
        st_generatedCards := st_generatedCards sample_state;
        st_isGenerating := false;
        st_error := js "Need at least 12 unique words, but you have 3";
        st_success := [];
        st_currentStep := words_step |}, 7%nat).
Proof.
  apply (handleGenerateCards_rejects sample_random sample_state 7%nat).
  vm_compute. reflexivity.
Defined.

(** X7: when the pool has at least [gridSize * gridSize] words,
    [handleGenerateCards] replaces the cards by a fresh batch of exactly
    [numCards] cards with pairwise distinct ids, clears the error, reports
    the number of cards and moves to the [generate] step; words and
    configuration are not touched. *)
Theorem handleGenerateCards_generates (Math_random : nat -> Q)
    (st : HomeState) (k : nat) :
  let g := gridSize (st_cardConfig st) in
  let N := numCards (st_cardConfig st) in
  g * g <= Z.of_nat (length (st_words st)) →
  let st' := (handleGenerateCards Math_random st k).1 in
  length (st_generatedCards st') = Z.to_nat N
  ∧ NoDup (card_id <$> st_generatedCards st')
  ∧ st_error st' = []
  ∧ st_success st' =
      js "Generated " ++ ToString (Z.of_nat (Z.to_nat N))
      ++ js " bingo card(s) successfully!"
  ∧ st_currentStep st' = generate
  ∧ st_isGenerating st' = false
  ∧ st_words st' = st_words st
  ∧ st_cardConfig st' = st_cardConfig st.
Proof.
  intros g N Hlen st'. subst st'.
  unfold handleGenerateCards, try_generate, isWordCountSufficient.
  fold g N.
  destruct (Z.geb_spec (Z.of_nat (length (st_words st))) (g * g)); [| lia].
  cbn [negb].
  rewrite generateBingoCards_independent by done. fold g N.
  destruct (independent_cards_returns Math_random (st_words st) g
              (Z.to_nat N) 0 k Hlen) as (cards & -> & Hn & Hshape).
  cbn. rewrite Hn. repeat split; try done.
  apply NoDup_alt. intros i j x Hi Hj.
  apply list_lookup_fmap_Some in Hi as (ci & -> & Hci).
  apply list_lookup_fmap_Some in Hj as (cj & Heq & Hcj).
  destruct (Hshape i ci Hci) as (Hidi & _), (Hshape j cj Hcj) as (Hidj & _).
  rewrite Hidi, Hidj in Heq. apply cardId_of_inj in Heq. lia.
Qed.

Lemma handleGenerateCards_generates_witness :
  let st' := (handleGenerateCards sample_random sample_state_ready 0%nat).1 in
  length (st_generatedCards st') = 3%nat
  ∧ NoDup (card_id <$> st_generatedCards st')
  ∧ st_error st' = []
  ∧ st_success st' = js "Generated 3 bingo card(s) successfully!"
  ∧ st_currentStep st' = generate
  ∧ st_isGenerating st' = false
  ∧ st_words st' = sample_pool
  ∧ st_cardConfig st' = st_cardConfig sample_state_ready.
Proof.
  apply (handleGenerateCards_generates sample_random sample_state_ready
           0%nat).
  vm_compute. discriminate.
Defined.

(** X8: after a batch of [numCards] cards has been generated, deleting the
    card [card-(j+1)] of that batch ([0 <= j < numCards]) removes exactly
    one card: [numCards - 1] cards are left, none has the deleted id, and
    the others are kept as they were, in their order. *)
Theorem handleDeleteCard_removes_one (Math_random : nat -> Q)
    (st : HomeState) (k : nat) (j : Z) :
  let g := gridSize (st_cardConfig st) in
  let N := numCards (st_cardConfig st) in
  g * g <= Z.of_nat (length (st_words st)) →
  0 <= j < N →
  let st' := (handleGenerateCards Math_random st k).1 in
  let deleted := js "card-" ++ ToString (j + 1) in
  let st'' := handleDeleteCard st' deleted in
  length (st_generatedCards st'') = (Z.to_nat N - 1)%nat
  ∧ (∀ card, card ∈ st_generatedCards st'' → card_id card ≠ deleted)
  ∧ st_generatedCards st'' `sublist_of` st_generatedCards st'
  ∧ (∀ card, card ∈ st_generatedCards st' → card_id card ≠ deleted →
       card ∈ st_generatedCards st'').
Proof.
  intros g N Hlen Hj st' deleted st''. subst st'' st'.
  unfold handleGenerateCards, try_generate, isWordCountSufficient.
  fold g N.
  destruct (Z.geb_spec (Z.of_nat (length (st_words st))) (g * g)); [| lia].
  cbn [negb].
  rewrite generateBingoCards_independent by done. fold g N.
  destruct (independent_cards_returns Math_random (st_words st) g
              (Z.to_nat N) 0 k Hlen) as (cards & -> & Hn & Hshape).
  cbn [fst handleDeleteCard st_generatedCards].
  assert (NoDup (card_id <$> cards)) as Hnd.
  { apply NoDup_alt. intros i i' x Hi Hi'.
    apply list_lookup_fmap_Some in Hi as (ci & -> & Hci).
    apply list_lookup_fmap_Some in Hi' as (cj & Heq & Hcj).
    destruct (Hshape i ci Hci) as (Hidi & _),
             (Hshape i' cj Hcj) as (Hidj & _).
    rewrite Hidi, Hidj in Heq. apply cardId_of_inj in Heq. lia. }
  destruct (lookup_lt_is_Some_2 cards (Z.to_nat j)) as [c Hc]; [lia |].
  assert (card_id c = deleted) as Hid.
  { destruct (Hshape _ c Hc) as (-> & _). unfold cardId_of, deleted.
    do 2 f_equal. lia. }
  rewrite <- Hid. repeat split.
  - rewrite (filter_other_ids_length card_id cards (Z.to_nat j) c) by done.
    by rewrite Hn.
  - by intros card [? _]%list_elem_of_filter.
  - apply sublist_filter.
  - intros card Hin Hne. by apply list_elem_of_filter.
Qed.

Lemma handleDeleteCard_removes_one_witness :
  let st' := (handleGenerateCards sample_random sample_state_ready 0%nat).1 in
  let st'' := handleDeleteCard st' (js "card-2") in
  length (st_generatedCards st'') = 2%nat
  ∧ (∀ card, card ∈ st_generatedCards st'' → card_id card ≠ js "card-2")
  ∧ st_generatedCards st'' `sublist_of` st_generatedCards st'
  ∧ (∀ card, card ∈ st_generatedCards st' → card_id card ≠ js "card-2" →
       card ∈ st_generatedCards st'').
Proof.
  apply (handleDeleteCard_removes_one sample_random sample_state_ready 0%nat
           1).
  - vm_compute. discriminate.
  - vm_compute. split; [discriminate | reflexivity].
Defined.

(** X9: deleting an id that no generated card has changes nothing. *)
Theorem handleDeleteCard_unknown_id (st : HomeState) (cardId : jsstring) :
  (∀ card, card ∈ st_generatedCards st → card_id card ≠ cardId) →
  handleDeleteCard st cardId = st.
Proof.
  intros H. destruct st as [w c cards g e s step].
  unfold handleDeleteCard. cbn in *. f_equal.
  apply filter_keeps_all. by apply Forall_forall.
Qed.

Lemma handleDeleteCard_unknown_id_witness :
  handleDeleteCard sample_state (js "card-9") = sample_state.
Proof.
  apply (handleDeleteCard_unknown_id sample_state (js "card-9")).
  intros card Hin. apply list_elem_of_singleton in Hin as ->.
  vm_compute. discriminate.
Defined.

(** ** UnitConverter, further *)

Lemma Qfloor_unique (y : Q) (m : Z) :
  (inject_Z m <= y)%Q → (y < inject_Z m + 1)%Q → Qfloor y = m.
Proof.
  intros H1 H2.
  pose proof (Qfloor_le y) as Hle. pose proof (Qlt_floor y) as Hlt.
  rewrite inject_Z_plus in Hlt. change (inject_Z 1) with 1%Q in Hlt.
  assert (inject_Z (Qfloor y) < inject_Z (m + 1))%Q as Ha.
  { rewrite inject_Z_plus. change (inject_Z 1) with 1%Q. lra. }
  assert (inject_Z m < inject_Z (Qfloor y + 1))%Q as Hb.
  { rewrite inject_Z_plus. change (inject_Z 1) with 1%Q. lra. }
  rewrite <- Zlt_Qlt in Ha, Hb. lia.
Qed.

(** X10: for every whole number of millimetres [m] of magnitude at most
    10^15, converting [m] to pixels and back gives [m] again (the lossy
    direction is the other one). *)
Theorem convertSize_mm_px_mm (m : Z) :
  Z.abs m <= 10 ^ 15 →
  convertSize (convertSize (inject_Z m) mm px) px mm = inject_Z m.
Proof.
  intros Hv.
  rewrite convertSize_to_mm, convertSize_to_px.
  assert (Qabs (inject_Z m) <= inject_Z (10 ^ 15))%Q as Hq.
  { rewrite Qabs_inject_Z. by rewrite <- Zle_Qle. }
  apply Qabs_Qle_condition in Hq as [Hq1 Hq2].
  change (inject_Z (10 ^ 15)) with (1000000000000000 # 1)%Q in Hq1, Hq2.
  set (x1 := (inject_Z m * mmToPx)%Q).
  assert (x1 == inject_Z m * (531921215831161 # 140737488355328))%Q as Hx1.
  { unfold x1. by rewrite mmToPx_value. }
  assert (Qabs x1 < pow2 52)%Q as Hb1.
  { apply Qabs_Qlt_condition. change (pow2 52) with (4503599627370496 # 1)%Q.
    split; lra. }
  pose proof (fl_error_below x1 52 Hb1 ltac:(lia)) as He1.
  change (pow2 (52 - 54)) with (1 # 4)%Q in He1.
  apply Qabs_Qle_condition in He1 as [He1 He1'].
  destruct (Math_round_near (fl x1)) as [Hp1 Hp2].
  unfold Math_round in *.
  set (P := Qfloor (fl x1 + 0.5)) in *. clearbody P.
  set (y1 := fl x1) in *. clearbody y1. clear Hb1. clearbody x1.
  set (x2 := (inject_Z P / mmToPx)%Q).
  assert (x2 * (531921215831161 # 140737488355328) == inject_Z P)%Q as Hx2.
  { unfold x2. rewrite <- mmToPx_value. field. rewrite mmToPx_value. lra. }
  assert (Qabs x2 < pow2 50)%Q as Hb2.
  { apply Qabs_Qlt_condition. change (pow2 50) with (1125899906842624 # 1)%Q.
    split; lra. }
  pose proof (fl_error_below x2 50 Hb2 ltac:(lia)) as He2.
  change (pow2 (50 - 54)) with (1 # 16)%Q in He2.
  apply Qabs_Qle_condition in He2 as [He2 He2'].
  set (y2 := fl x2) in *. clearbody y2. clear Hb2. clearbody x2.
  f_equal. apply Qfloor_unique; lra.
Qed.

Lemma convertSize_mm_px_mm_witness :
  convertSize (convertSize (inject_Z 210) mm px) px mm = inject_Z 210.
Proof. apply (convertSize_mm_px_mm 210). by vm_compute. Defined.

(** X11: [convertSize] never reverses an order: a larger value converts to
    a value at least as large, for every pair of units. *)
Theorem convertSize_monotone (v w : Q) (from to : SizeUnit) :
  (v <= w)%Q → (convertSize v from to <= convertSize w from to)%Q.
Proof.
  intros H. unfold convertSize.
  destruct from, to; cbn [SizeUnit_eqb andb]; try done;
    apply Math_round_le, fl_mono.
  - apply Qmult_le_compat_r; [done |]. by vm_compute.
  - apply Qmult_le_compat_r; [done |]. by vm_compute.
Qed.

Lemma convertSize_monotone_witness :
  (convertSize 100 px mm <= convertSize 101 px mm)%Q.
Proof.
  apply (convertSize_monotone 100 101 px mm). by vm_compute.
Defined.

(** X12: for a value [v] of magnitude at most 1000000, [convertSize]
    between different units gives a whole number that is within half a unit
    (and the binary64 rounding of the product or quotient, below 1e-9) of
    the exact conversion at 96 pixels per inch (25.4 mm): [v * 96 / 25.4]
    to pixels, [v * 25.4 / 96] to millimetres; between equal units it gives
    the value back. *)
Theorem convertSize_nearest (v : Q) :
  (Qabs v <= 1000000)%Q →
  (∃ z : Z, convertSize v mm px = inject_Z z
            ∧ (Qabs (inject_Z z - v * 96 / 25.4)
               <= (1 # 2) + (1 # 1000000000))%Q)
  ∧ (∃ z : Z, convertSize v px mm = inject_Z z
              ∧ (Qabs (inject_Z z - v * 25.4 / 96)
                 <= (1 # 2) + (1 # 1000000000))%Q)
  ∧ convertSize v px px = v ∧ convertSize v mm mm = v.
Proof.
  intros Hv. apply Qabs_Qle_condition in Hv as [Hv1 Hv2].
  split; [| split; [| done]].
  - rewrite convertSize_to_px. eexists. split; [reflexivity |].
    set (x := (v * mmToPx)%Q).
    assert (x == v * (531921215831161 # 140737488355328))%Q as Hx.
    { unfold x. by rewrite mmToPx_value. }
    assert (Qabs x < pow2 22)%Q as Hb.
    { apply Qabs_Qlt_condition. change (pow2 22) with (4194304 # 1)%Q.
      split; lra. }
    pose proof (fl_error_below x 22 Hb ltac:(lia)) as He.
    change (pow2 (22 - 54)) with (1 # 4294967296)%Q in He.
    apply Qabs_Qle_condition in He as [He He'].
    destruct (Math_round_near (fl x)) as [Hp1 Hp2].
    unfold Math_round in *.
    set (P := Qfloor (fl x + 0.5)) in *. clearbody P.
    set (y := fl x) in *. clearbody y. clear Hb. clearbody x.
    assert (v * 96 / 25.4 == v * (480 # 127))%Q as -> by field.
    apply Qabs_Qle_condition. split; lra.
  - rewrite convertSize_to_mm. eexists. split; [reflexivity |].
    set (x := (v / mmToPx)%Q).
    assert (x * (531921215831161 # 140737488355328) == v)%Q as Hx.
    { unfold x. rewrite <- mmToPx_value. field. rewrite mmToPx_value. lra. }
    assert (Qabs x < pow2 22)%Q as Hb.
    { apply Qabs_Qlt_condition. change (pow2 22) with (4194304 # 1)%Q.
      split; lra. }
    pose proof (fl_error_below x 22 Hb ltac:(lia)) as He.
    change (pow2 (22 - 54)) with (1 # 4294967296)%Q in He.
    apply Qabs_Qle_condition in He as [He He'].
    destruct (Math_round_near (fl x)) as [Hp1 Hp2].
    unfold Math_round in *.
    set (P := Qfloor (fl x + 0.5)) in *. clearbody P.
    set (y := fl x) in *. clearbody y. clear Hb. clearbody x.
    assert (v * 25.4 / 96 == v * (127 # 480))%Q as -> by field.
    apply Qabs_Qle_condition. split; lra.
Qed.

Lemma convertSize_nearest_witness :
  ∃ z : Z, convertSize 210 mm px = inject_Z z
           ∧ (Qabs (inject_Z z - 210 * 96 / 25.4)
              <= (1 # 2) + (1 # 1000000000))%Q.
Proof. apply (convertSize_nearest 210). by vm_compute. Defined.

(** X13: the pixel dimensions of the A4 and Letter presets are the
    millimetre dimensions converted by [convertSize]; Custom is the same
    600 x 800 in both units; every preset is taller than wide in both
    units. *)
Theorem getSizePresetDimensions_converted (preset : SizePreset)
    (unit : SizeUnit) :
  let in_mm := getSizePresetDimensions preset mm in
  getSizePresetDimensions preset unit =
    match preset with
    | Custom => in_mm
    | _ => {| width := convertSize (width in_mm) mm unit;
              height := convertSize (height in_mm) mm unit |}
    end
  ∧ (width (getSizePresetDimensions preset unit)
     < height (getSizePresetDimensions preset unit))%Q.
Proof.
  destruct preset, unit; split; by vm_compute.
Qed.

(** ** LayoutEngine *)

Lemma floor_quotient_bounds (a : Q) (g : Z) :
  0 < g →
  (Math_floor (a / inject_Z g) * inject_Z g <= a)%Q
  ∧ (a < (Math_floor (a / inject_Z g) + 1) * inject_Z g)%Q.
Proof.
  intros Hg. unfold Math_floor.
  assert (0 < inject_Z g)%Q as Hq by (rewrite <- (Zlt_Qlt 0); lia).
  pose proof (Qfloor_le (a / inject_Z g)) as Hle.
  pose proof (Qlt_floor (a / inject_Z g)) as Hlt.
  rewrite inject_Z_plus in Hlt. change (inject_Z 1) with 1%Q in Hlt.
  assert (a / inject_Z g * inject_Z g == a)%Q as Ha by (field; lra).
  split.
  - rewrite <- Ha at 2. apply Qmult_le_compat_r; lra.
  - rewrite <- Ha at 1. apply Qmult_lt_compat_r; lra.
Qed.

(** X14: for a grid of [g >= 1] cells a side, the cells
    [calculateCardDimensions] sizes fit in the container: [g] cells of the
    computed whole-pixel width, the [g - 1] one-pixel gaps between them and
    the 20-pixel padding and 2-pixel border on both sides take no more than
    the container width, and one more pixel per cell would not fit; the
    same holds for the height; the card itself is given the container's
    size. *)
Theorem calculateCardDimensions_fits (g : Z)
    (containerWidth containerHeight : Q) :
  1 <= g →
  let d := calculateCardDimensions g containerWidth containerHeight in
  let used (cell : Q) := (cell * inject_Z g + (inject_Z g - 1) + 44)%Q in
  (used (cellWidth d) <= containerWidth)%Q
  ∧ (containerWidth < used (cellWidth d + 1))%Q
  ∧ (used (cellHeight d) <= containerHeight)%Q
  ∧ (containerHeight < used (cellHeight d + 1))%Q
  ∧ (∃ w h : Z, cellWidth d = inject_Z w ∧ cellHeight d = inject_Z h)
  ∧ cardWidth d = containerWidth ∧ cardHeight d = containerHeight.
Proof.
  intros Hg d used. subst d used. unfold calculateCardDimensions.
  cbn [cellWidth cellHeight cardWidth cardHeight].
  destruct (floor_quotient_bounds
              (containerWidth - 20 * 2 - 2 * 2 - 1 * (inject_Z g - 1)) g)
    as [Hw1 Hw2]; [lia |].
  destruct (floor_quotient_bounds
              (containerHeight - 20 * 2 - 2 * 2 - 1 * (inject_Z g - 1)) g)
    as [Hh1 Hh2]; [lia |].
  repeat split; try lra.
  eexists _, _. split; reflexivity.
Qed.

Lemma calculateCardDimensions_fits_witness :
  let d := calculateCardDimensions 5 794 1123 in
  let used (cell : Q) := (cell * inject_Z 5 + (inject_Z 5 - 1) + 44)%Q in
  (used (cellWidth d) <= 794)%Q
  ∧ (794 < used (cellWidth d + 1))%Q
  ∧ (used (cellHeight d) <= 1123)%Q
  ∧ (1123 < used (cellHeight d + 1))%Q
  ∧ (∃ w h : Z, cellWidth d = inject_Z w ∧ cellHeight d = inject_Z h)
  ∧ cardWidth d = 794%Q ∧ cardHeight d = 1123%Q.
Proof.
  apply (calculateCardDimensions_fits 5 794 1123). by vm_compute.
Defined.

(** ** ExportPipeline, further *)

Section ExportMoreFacts.

Context {Element Image : Type}.
Variable html2canvas : Element -> Canvas Image.
Variables pageWidth pageHeight : Q.

Local Abbreviation export :=
  (exportCardsToPDF html2canvas pageWidth pageHeight).
Local Abbreviation single := (single_cell html2canvas pageWidth pageHeight).
Local Abbreviation cell := (grid_cell html2canvas pageWidth pageHeight).

Lemma place_card_single i e (pdf : PDF Image) :
  place_card html2canvas pageWidth pageHeight one_per_page i e pdf =
    addImage (single e) (if (0 <? i)%nat then addPage pdf else pdf).
Proof. reflexivity. Qed.

Lemma export_one_per_page (l : list Element) :
  l ≠ [] → export l one_per_page = (λ e, [single e]) <$> l.
Proof.
  unfold exportCardsToPDF.
  induction l as [|e l IH] using rev_ind; [done |]. intros _.
  rewrite export_loop_snoc, place_card_single, Nat.add_0_l, fmap_app.
  destruct l as [|x l].
  - reflexivity.
  - rewrite IH by done.
    replace (0 <? length (x :: l))%nat with true
      by (symmetry; apply Nat.ltb_lt; simpl; lia).
    by rewrite addImage_new_page.
Qed.

Lemma grid_cell_position (i : nat) (e : Element) :
  let w := ((pageWidth - 20) / 2)%Q in
  let h := ((pageHeight - 20) / 2)%Q in
  imgWidth (cell i e) = w ∧ imgHeight (cell i e) = h
  ∧ ((i mod 4 = 0)%nat ∧ xPos (cell i e) == 10 ∧ yPos (cell i e) == 10
     ∨ (i mod 4 = 1)%nat ∧ xPos (cell i e) == 10 + w + 5
                         ∧ yPos (cell i e) == 10
     ∨ (i mod 4 = 2)%nat ∧ xPos (cell i e) == 10
                         ∧ yPos (cell i e) == 10 + h + 5
     ∨ (i mod 4 = 3)%nat ∧ xPos (cell i e) == 10 + w + 5
                         ∧ yPos (cell i e) == 10 + h + 5)%Q.
Proof.
  intros w h. unfold grid_cell. cbn [imgWidth imgHeight xPos yPos].
  fold w h. split; [done |]. split; [done |].
  pose proof (Nat.mod_upper_bound i 4 ltac:(lia)) as Hr.
  destruct (i mod 4)%nat as [|[|[|[|r]]]]; [| | | | lia].
  - left. split; [done |]. cbn -[of_nat].
    change (of_nat 0) with 0%Q; change (of_nat 1) with 1%Q. split; ring.
  - right; left. split; [done |]. cbn -[of_nat].
    change (of_nat 0) with 0%Q; change (of_nat 1) with 1%Q. split; ring.
  - right; right; left. split; [done |]. cbn -[of_nat].
    change (of_nat 0) with 0%Q; change (of_nat 1) with 1%Q. split; ring.
  - right; right; right. split; [done |]. cbn -[of_nat].
    change (of_nat 0) with 0%Q; change (of_nat 1) with 1%Q. split; ring.
Qed.

End ExportMoreFacts.



(** X16: on a page at least 10 wide and 10 high, every image the grid
    layout places lies inside the page: at or beyond the left and top
    margins of 10, and ending 5 or more before the right and bottom
    edges. *)
Theorem grid_layout_within_page {Element Image : Type}
    (html2canvas : Element -> Canvas Image) (pageWidth pageHeight : Q)
    (cardElements : list Element) :
  (10 <= pageWidth)%Q → (10 <= pageHeight)%Q →
  let pdf :=
    exportCardsToPDF html2canvas pageWidth pageHeight cardElements
      multiple_per_page in
  ∀ i element, cardElements !! i = Some element →
    ∃ page img,
      pdf !! (i / 4)%nat = Some page ∧ page !! (i mod 4)%nat = Some img
      ∧ imageData img = toDataURL (html2canvas element)
      ∧ within_page pageWidth pageHeight img.
Proof.
  intros HW HH pdf i element Hi.
  destruct (grid_inv_export html2canvas pageWidth pageHeight cardElements)
    as (full & last & _ & _ & _ & _ & _ & Hcells).
  destruct (Hcells i element Hi) as (page & Hpage & Himg).
  exists page, (grid_cell html2canvas pageWidth pageHeight i element).
  split; [done |]. split; [done |]. split; [done |].
  destruct (grid_cell_position html2canvas pageWidth pageHeight i element)
    as (Hw & Hh & Hpos).
  unfold within_page. rewrite Hw, Hh.
  assert ((pageWidth - 20) / 2 * 2 == pageWidth - 20)%Q as Ew by field.
  assert ((pageHeight - 20) / 2 * 2 == pageHeight - 20)%Q as Eh by field.
  revert Ew Eh Hpos.
  generalize ((pageWidth - 20) / 2)%Q, ((pageHeight - 20) / 2)%Q.
  intros w h Ew Eh Hpos.
  destruct Hpos as [(_ & -> & ->) | [(_ & -> & ->) | [(_ & -> & ->)
                    | (_ & -> & ->)]]]; repeat split; lra.
Qed.

Lemma grid_layout_within_page_witness :
  ∃ page img,
    exportCardsToPDF sample_canvas 210 297 [1; 2; 3; 4; 5]%nat
      multiple_per_page !! (4 / 4)%nat = Some page
    ∧ page !! (4 mod 4)%nat = Some img
    ∧ imageData img = toDataURL (sample_canvas 5)
    ∧ within_page 210 297 img.
Proof.
  apply (grid_layout_within_page sample_canvas 210 297 [1; 2; 3; 4; 5]%nat);
    by vm_compute.
Defined.

(** X17: two different cards that the grid layout puts on the same page
    never overlap: their images are side by side or one above the other
    with a gutter of 5 between them. *)
Theorem grid_layout_apart {Element Image : Type}
    (html2canvas : Element -> Canvas Image) (pageWidth pageHeight : Q)
    (cardElements : list Element) (i j : nat) (ei ej : Element) :
  cardElements !! i = Some ei → cardElements !! j = Some ej →
  i ≠ j → (i / 4 = j / 4)%nat →
  let pdf :=
    exportCardsToPDF html2canvas pageWidth pageHeight cardElements
      multiple_per_page in
  ∃ page a b,
    pdf !! (i / 4)%nat = Some page
    ∧ page !! (i mod 4)%nat = Some a ∧ page !! (j mod 4)%nat = Some b
    ∧ imageData a = toDataURL (html2canvas ei)
    ∧ imageData b = toDataURL (html2canvas ej)
    ∧ apart a b.
Proof.
  intros Hi Hj Hne Hpage pdf.
  destruct (grid_inv_export html2canvas pageWidth pageHeight cardElements)
    as (full & last & _ & _ & _ & _ & _ & Hcells).
  destruct (Hcells i ei Hi) as (page & Hp & Ha).
  destruct (Hcells j ej Hj) as (page' & Hp' & Hb).
  fold pdf in Hp, Hp'. rewrite <- Hpage, Hp in Hp'. injection Hp' as <-.
  eexists page, _, _. split; [done |]. split; [exact Ha |].
  split; [exact Hb |]. split; [done |]. split; [done |].
  assert (i mod 4 ≠ j mod 4)%nat as Hmod.
  { intros E. apply Hne.
    rewrite (Nat.div_mod_eq i 4), (Nat.div_mod_eq j 4). by rewrite Hpage, E. }
  destruct (grid_cell_position html2canvas pageWidth pageHeight i ei)
    as (Hwa & Hha & Hpa).
  destruct (grid_cell_position html2canvas pageWidth pageHeight j ej)
    as (Hwb & Hhb & Hpb).
  unfold apart. rewrite Hwa, Hha, Hwb, Hhb.
  revert Hpa Hpb.
  generalize ((pageWidth - 20) / 2)%Q, ((pageHeight - 20) / 2)%Q.
  intros w h Hpa Hpb.
  destruct Hpa as [(Ea & -> & ->) | [(Ea & -> & ->) | [(Ea & -> & ->)
                   | (Ea & -> & ->)]]];
  destruct Hpb as [(Eb & -> & ->) | [(Eb & -> & ->) | [(Eb & -> & ->)
                   | (Eb & -> & ->)]]];
  try (exfalso; apply Hmod; congruence);
  first [ left; lra | right; left; lra | right; right; left; lra
        | right; right; right; lra ].
Qed.

Lemma grid_layout_apart_witness :
  ∃ page a b,
    exportCardsToPDF sample_canvas 210 297 [1; 2; 3; 4; 5]%nat
      multiple_per_page !! (1 / 4)%nat = Some page
    ∧ page !! (1 mod 4)%nat = Some a ∧ page !! (2 mod 4)%nat = Some b
    ∧ imageData a = toDataURL (sample_canvas 2)
    ∧ imageData b = toDataURL (sample_canvas 3)
    ∧ apart a b.
Proof.
  apply (grid_layout_apart sample_canvas 210 297 [1; 2; 3; 4; 5]%nat
           1 2 2%nat 3%nat); by vm_compute.
Defined.

(** ** Tabular input *)

Lemma extract_loop_words c rest words :
  extract_loop c rest words = words ++ extract_loop c rest [].
Proof.
  revert words. induction rest as [|row rest IH]; intros words; simpl.
  - by rewrite app_nil_r.
  - destruct (cell_at row c) as [cell|]; [| apply IH].
    destruct (0 <? length cell)%nat; [| apply IH].
    destruct (0 <? length (trim cell))%nat; [| apply IH].
    rewrite IH, (IH [_]). by rewrite <- app_assoc.
Qed.

Lemma extract_loop_app c rows1 rows2 :
  extract_loop c (rows1 ++ rows2) []
  = extract_loop c rows1 [] ++ extract_loop c rows2 [].
Proof.
  induction rows1 as [|row rows1 IH]; simpl; [done |].
  destruct (cell_at row c) as [cell|]; [| apply IH].
  destruct (0 <? length cell)%nat; [| apply IH].
  destruct (0 <? length (trim cell))%nat; [| apply IH].
  rewrite extract_loop_words, (extract_loop_words _ rows1 [_]), IH.
  by rewrite <- app_assoc.
Qed.

(** X18: [extractWordsFromParsedData] reads the rows one after the other
    and never removes a duplicate: the words of a table are the words of
    its first rows followed by the words of the rest, so a table that
    repeats its rows gives every word twice. *)
Theorem extractWordsFromParsedData_app (cols : list jsstring)
    (rows1 rows2 : list (list jsstring)) (sel c : Z) :
  let table rs := {| columns := cols; rows := rs; selectedColumn := sel |} in
  extractWordsFromParsedData (table (rows1 ++ rows2)) c
  = extractWordsFromParsedData (table rows1) c
    ++ extractWordsFromParsedData (table rows2) c.
Proof. apply extract_loop_app. Qed.

(** X19: every word [extractWordsFromParsedData] gives is the trimmed,
    non-empty content of the cell at [columnIndex] of some data row, and
    there is at most one word per row. *)
Theorem extractWordsFromParsedData_words (data : ParsedFileData) (c : Z) :
  Forall (λ w, w ≠ [] ∧ trimmed w
               ∧ ∃ row cell, row ∈ rows data ∧ 0 <= c
                             ∧ row !! Z.to_nat c = Some cell
                             ∧ w = trim cell)
    (extractWordsFromParsedData data c)
  ∧ (length (extractWordsFromParsedData data c) ≤ length (rows data))%nat.
Proof.
  unfold extractWordsFromParsedData.
  induction (rows data) as [|row rest [IHw IHn]]; simpl.
  - split; [constructor | done].
  - assert (Forall (λ w, w ≠ [] ∧ trimmed w
               ∧ ∃ row0 cell, row0 ∈ row :: rest ∧ 0 <= c
                              ∧ row0 !! Z.to_nat c = Some cell
                              ∧ w = trim cell) (extract_loop c rest []))
      as IHw'.
    { eapply Forall_impl; [exact IHw |]. simpl.
      intros w (? & ? & r & cell & ? & ? & ? & ?).
      split; [done |]. split; [done |]. exists r, cell.
      split; [by right | done]. }
    destruct (cell_at row c) as [cell|] eqn:Hcell;
      [| split; [exact IHw' | lia]].
    destruct (0 <? length cell)%nat; [| split; [exact IHw' | lia]].
    destruct (0 <? length (trim cell))%nat eqn:Hlen;
      [| split; [exact IHw' | lia]].
    rewrite extract_loop_words. split; [| simpl; lia].
    constructor; [| exact IHw'].
    apply Nat.ltb_lt in Hlen. unfold cell_at in Hcell.
    destruct (Z.ltb_spec c 0); [done |].
    split; [| split].
    + intros E. rewrite E in Hlen. simpl in Hlen. lia.
    + apply trim_trimmed.
    + exists row, cell. split; [by left | done].
Qed.

(** X20: when no data row has a cell at [columnIndex] (a negative index, or
    one past the end of every row), [extractWordsFromParsedData] gives no
    word at all. *)
Theorem extractWordsFromParsedData_no_column (data : ParsedFileData) (c : Z) :
  Forall (λ row, c < 0 ∨ Z.of_nat (length row) <= c) (rows data) →
  extractWordsFromParsedData data c = [].
Proof.
  unfold extractWordsFromParsedData.
  induction 1 as [|row rest Hrow _ IH]; simpl; [done |].
  assert (cell_at row c = None) as ->; [| done].
  unfold cell_at. destruct (Z.ltb_spec c 0); [done |].
  apply lookup_ge_None. lia.
Qed.

Lemma extractWordsFromParsedData_no_column_witness :
  extractWordsFromParsedData sample_table 2 = [].
Proof.
  apply (extractWordsFromParsedData_no_column sample_table 2).
  apply (bool_decide_unpack _). by vm_compute.
Defined.

(** X21: [parseCSVFile] rejects a file with no row at all, with the message
    [CSV file is empty]; otherwise the first row only gives the number of
    columns, which are named [Column 1], [Column 2], ... (pairwise distinct
    names), the other rows are the data rows, unchanged and in order, and
    the selected column is the first. *)
Theorem parseCSVFile_table (header : list jsstring)
    (dataRows : list (list jsstring)) :
  parseCSVFile [] = inl (Error (js "CSV file is empty"))
  ∧ ∃ data,
      parseCSVFile (header :: dataRows) = inr data
      ∧ length (columns data) = length header
      ∧ (∀ i, (i < length header)%nat →
           columns data !! i
           = Some (js "Column " ++ ToString (Z.of_nat i + 1)))
      ∧ NoDup (columns data)
      ∧ rows data = dataRows
      ∧ selectedColumn data = 0.
Proof.
  split; [done |]. eexists. split; [reflexivity |].
  cbn [columns rows selectedColumn].
  assert (∀ i, (i < length header)%nat →
           imap (λ index _, js "Column " ++ ToString (Z.of_nat index + 1))
             header !! i
           = Some (js "Column " ++ ToString (Z.of_nat i + 1))) as Hnames.
  { intros i Hi. rewrite list_lookup_imap.
    destruct (lookup_lt_is_Some_2 header i Hi) as [x ->]. done. }
  split; [apply length_imap |]. split; [exact Hnames |].
  split; [| done].
  apply NoDup_alt. intros i j x Hi Hj.
  pose proof (lookup_lt_Some _ _ _ Hi) as Hi'.
  pose proof (lookup_lt_Some _ _ _ Hj) as Hj'.
  rewrite length_imap in Hi', Hj'.
  rewrite Hnames in Hi, Hj by done.
  rewrite <- Hi in Hj. apply (inj Some) in Hj.
  apply app_inv_head, ToString_inj in Hj. lia.
Qed.

(** ** Accepted files *)

Lemma endsWith_spec (s suffix : jsstring) :
  endsWith s suffix = true ↔ ∃ base, s = base ++ suffix.
Proof.
  unfold endsWith. rewrite bool_decide_eq_true. split.
  - intros H. exists (take (length s - length suffix) s).
    transitivity (take (length s - length suffix) s
                  ++ drop (length s - length suffix) s);
      [symmetry; apply take_drop | by rewrite H].
  - intros [base ->]. rewrite length_app.
    replace (length base + length suffix - length suffix)%nat
      with (length base) by lia.
    by rewrite drop_app_length.
Qed.

(** X22: [isValidFileType] accepts a file exactly when its media type is
    one of the three listed or its name is some text followed by [.csv],
    [.xlsx] or [.xls]; the name alone is enough, whatever the type. *)
Theorem isValidFileType_spec (file : File) :
  isValidFileType file = true
  ↔ file_type file ∈
      [js "text/csv"; js "application/vnd.ms-excel";
       js "application/vnd.openxmlformats-officedocument.spreadsheetml.sheet"]
    ∨ ∃ base ext, ext ∈ [js ".csv"; js ".xlsx"; js ".xls"]
                  ∧ file_name file = base ++ ext.
Proof.
  unfold isValidFileType.
  rewrite !orb_true_iff, bool_decide_eq_true, !endsWith_spec.
  split.
  - intros [[[H | [base H]] | [base H]] | [base H]]; [by left | right ..].
    + exists base, (js ".csv"). split; [set_solver | done].
    + exists base, (js ".xlsx"). split; [set_solver | done].
    + exists base, (js ".xls"). split; [set_solver | done].
  - intros [H | (base & ext & Hext & Hname)]; [by repeat left |].
    rewrite !elem_of_cons in Hext.
    destruct Hext as [-> | [-> | [-> | Hnil]]].
    + left; left; right. by exists base.
    + left; right. by exists base.
    + right. by exists base.
    + by apply elem_of_nil in Hnil.
Qed.

(** ** The bundle of images *)

Lemma split_commas_free (p : jsstring) :
  Forall (λ c, c ≠ 44%N) p → split_commas p = [p].
Proof.
  induction 1 as [|c p Hc _ IH]; [done |].
  simpl. rewrite IH. by apply N.eqb_neq in Hc as ->.
Qed.

Lemma split_commas_header (h rest : jsstring) :
  Forall (λ c, c ≠ 44%N) h →
  split_commas (h ++ 44%N :: rest) = h :: split_commas rest.
Proof.
  induction 1 as [|c h Hc _ IH]; [done |].
  simpl. rewrite IH. by apply N.eqb_neq in Hc as ->.
Qed.

(** X23: of a data URL made of a header, a comma and a payload, neither
    with a comma inside, [exportCardsAsZIP] stores the payload; of a text
    with no comma at all it stores the empty string. *)
Theorem base64_of_data_url (header payload : jsstring) :
  Forall (λ c, c ≠ 44%N) header → Forall (λ c, c ≠ 44%N) payload →
  base64_of (header ++ comma ++ payload) = payload
  ∧ base64_of header = [].
Proof.
  intros Hh Hp. unfold base64_of, comma. split.
  - change (header ++ [44%N] ++ payload) with (header ++ 44%N :: payload).
    by rewrite split_commas_header, split_commas_free.
  - by rewrite split_commas_free.
Qed.

Lemma base64_of_data_url_witness :
  base64_of (js "data:image/png;base64" ++ comma ++ js "iVBORw0KGgo=")
  = js "iVBORw0KGgo="
  ∧ base64_of (js "data:image/png;base64") = [].
Proof.
  apply (base64_of_data_url (js "data:image/png;base64") (js "iVBORw0KGgo="));
    apply (bool_decide_unpack _); by vm_compute.
Defined.

Section BundleFacts.

Context {Element : Type}.
Variable html2canvas : Element -> Canvas jsstring.

Local Abbreviation loop := (zip_loop html2canvas).
Local Abbreviation data_of :=
  (λ e : Element, base64_of (toDataURL (html2canvas e))).

Lemma zip_loop_other (rest : list Element) (i : nat)
    (zip : gmap jsstring jsstring) (name : jsstring) :
  (∀ j, (j < length rest)%nat → name ≠ png_name (i + j)) →
  loop i rest zip !! name = zip !! name.
Proof.
  revert i zip. induction rest as [|e rest IH]; intros i zip Hname; [done |].
  simpl. rewrite IH.
  - apply lookup_insert_ne. specialize (Hname 0%nat ltac:(simpl; lia)).
    by rewrite Nat.add_0_r in Hname.
  - intros j Hj. specialize (Hname (S j) ltac:(simpl; lia)).
    by replace (S i + j)%nat with (i + S j)%nat by lia.
Qed.

Lemma zip_loop_entry (rest : list Element) (i : nat)
    (zip : gmap jsstring jsstring) (j : nat) (e : Element) :
  rest !! j = Some e →
  loop i rest zip !! png_name (i + j) = Some (data_of e).
Proof.
  revert i zip j. induction rest as [|x rest IH]; intros i zip j Hj;
    [done |].
  destruct j as [|j]; simpl in *.
  - injection Hj as ->. rewrite Nat.add_0_r, zip_loop_other.
    + apply lookup_insert_eq.
    + intros j _ E%png_name_inj. lia.
  - replace (i + S j)%nat with (S i + j)%nat by lia. by apply IH.
Qed.

Lemma zip_loop_size (rest : list Element) (i : nat)
    (zip : gmap jsstring jsstring) :
  (∀ j, (j < length rest)%nat → zip !! png_name (i + j) = None) →
  size (loop i rest zip) = (size zip + length rest)%nat.
Proof.
  revert i zip. induction rest as [|e rest IH]; intros i zip Hfree; simpl.
  - lia.
  - rewrite IH.
    + rewrite map_size_insert_None; [lia |].
      specialize (Hfree 0%nat ltac:(simpl; lia)).
      by rewrite Nat.add_0_r in Hfree.
    + intros j Hj. rewrite lookup_insert_ne.
      * specialize (Hfree (S j) ltac:(simpl; lia)).
        by replace (S i + j)%nat with (i + S j)%nat by lia.
      * intros E%png_name_inj. lia.
Qed.

End BundleFacts.

(** X24: the archive [exportCardsAsZIP] builds for [N] cards has exactly
    [N] entries: no entry overwrites another, and the entry
    [bingo-card-(i+1).png] holds the data of card [i]. *)
Theorem exportCardsAsZIP_entries {Element : Type}
    (html2canvas : Element -> Canvas jsstring)
    (cardElements : list Element) :
  size (exportCardsAsZIP html2canvas cardElements) = length cardElements
  ∧ ∀ i element, cardElements !! i = Some element →
      exportCardsAsZIP html2canvas cardElements
        !! (js "bingo-card-" ++ ToString (Z.of_nat i + 1) ++ js ".png")
      = Some (base64_of (toDataURL (html2canvas element))).
Proof.
  unfold exportCardsAsZIP. split.
  - rewrite zip_loop_size; [by rewrite map_size_empty |].
    intros j _. apply lookup_empty.
  - intros i element Hi.
    apply (zip_loop_entry html2canvas cardElements 0 ∅ i element Hi).
Qed.
